(* Verification of downtorrent (a leech-only BitTorrent client in TypeScript):
   a shallow embedding of the byte buffers, the BitSet of src/util/bitSet.ts
   (dumped in src/src/tracker.ts), the wire codec of src/peerMessage.ts, the
   piece store of src/piece.ts, the request pipeline of src/peer.ts, the
   cache eviction tick of src/downTorrent.ts and the tracker query URL. *)

From Stdlib Require Import ZArith QArith Qround Bool Lia String Ascii List Permutation
  DecimalString.
Import ListNotations.
Open Scope Z_scope.

(* ------------------------------------------------------------------------- *)
(** * JavaScript results and Node.js buffers *)

(** A JS computation either returns a value or throws. *)
Inductive result (A : Type) : Type :=
| Ok (a : A)
| Throw (msg : string).
Arguments Ok {A} a.
Arguments Throw {A} msg.

Definition bind {A B} (r : result A) (f : A -> result B) : result B :=
  match r with Ok a => f a | Throw m => Throw m end.

Notation "'let!' x := r 'in' f" := (bind r (fun x => f))
  (at level 200, x name, r at level 100, f at level 200).

(** A Node.js [Buffer]: a list of bytes, each in [0, 256). *)
Definition Buffer := list Z.

Definition is_byte (b : Z) : bool := (0 <=? b) && (b <? 256).

(** [Buffer.alloc(size)]: the size is a JS number, coerced by truncation to
    an index; a negative size throws. Sizes above kMaxLength are not
    modelled. *)
Definition Buffer_alloc_q (size : Q) : result Buffer :=
  if Qlt_le_dec size 0 then Throw "ERR_OUT_OF_RANGE"
  else Ok (repeat 0 (Z.to_nat (Qnum size / Zpos (Qden size)))).

Definition Buffer_alloc (size : Z) : Buffer := repeat 0 (Z.to_nat size).

(** [buf.readUInt8(offset)] *)
Definition readUInt8 (buf : Buffer) (off : Z) : result Z :=
  if (0 <=? off) && (off <? Z.of_nat (length buf))
  then Ok (nth (Z.to_nat off) buf 0)
  else Throw "ERR_OUT_OF_RANGE".

(** Replace the element at index [i] (in range). *)
Fixpoint set_nth {A} (i : nat) (x : A) (l : list A) : list A :=
  match l, i with
  | [], _ => []
  | _ :: t, O => x :: t
  | y :: t, S i' => y :: set_nth i' x t
  end.

(** [buf.writeUInt8(value, offset)]: the value is range checked, then
    stored; a NaN value passes the range check and is stored as 0. *)
Definition writeUInt8 (buf : Buffer) (value : option Z) (off : Z) : result Buffer :=
  match value with
  | Some v =>
      if (v <? 0) || (255 <? v) then Throw "ERR_OUT_OF_RANGE"
      else if (0 <=? off) && (off <? Z.of_nat (length buf))
      then Ok (set_nth (Z.to_nat off) v buf)
      else Throw "ERR_OUT_OF_RANGE"
  | None =>
      if (0 <=? off) && (off <? Z.of_nat (length buf))
      then Ok (set_nth (Z.to_nat off) 0 buf)
      else Throw "ERR_OUT_OF_RANGE"
  end.

(** [buf.readUInt32BE(offset)] *)
Definition readUInt32BE (buf : Buffer) (off : Z) : result Z :=
  if (0 <=? off) && (off + 4 <=? Z.of_nat (length buf))
  then let b i := nth (Z.to_nat (off + i)) buf 0 in
       Ok (b 0 * 16777216 + b 1 * 65536 + b 2 * 256 + b 3)
  else Throw "ERR_OUT_OF_RANGE".

(** [buf.writeUInt32BE(value, offset)]: value in [0, 2^32), offset in
    [0, length - 4], else a RangeError. *)
Definition writeUInt32BE (buf : Buffer) (value off : Z) : result Buffer :=
  if (value <? 0) || (4294967295 <? value) then Throw "ERR_OUT_OF_RANGE"
  else if (0 <=? off) && (off + 4 <=? Z.of_nat (length buf))
  then Ok (firstn (Z.to_nat off) buf
           ++ [Z.shiftr value 24 mod 256; Z.shiftr value 16 mod 256;
               Z.shiftr value 8 mod 256; value mod 256]
           ++ skipn (Z.to_nat (off + 4)) buf)
  else Throw "ERR_OUT_OF_RANGE".

(** [src.copy(target, targetStart)]: copies as many bytes of [src] as fit
    into [target] from [targetStart]; [target] keeps its length. *)
Definition buf_copy (src target : Buffer) (tstart : Z) : Buffer :=
  let t := Z.to_nat tstart in
  let n := Nat.min (length src) (length target - t) in
  firstn t target ++ firstn n src ++ skipn (t + n) target.

(** [buf.slice(start, end)] with in-range non-negative bounds. *)
Definition buf_slice (buf : Buffer) (s e : Z) : Buffer :=
  firstn (Z.to_nat e - Z.to_nat s) (skipn (Z.to_nat s) buf).

(** [buf.fill(value)] *)
Definition buf_fill (buf : Buffer) (v : Z) : Buffer := repeat v (length buf).

(* ------------------------------------------------------------------------- *)
(** * BitSet (src/util/bitSet.ts) *)

Record BitSet := mkBitSet { bs_length : Z; bs_buf : Buffer }.

(** [new BitSet(length, buf?)]:
    [this._buf = Buffer.alloc(Math.trunc(length + 7) / 8)]; the division is
    a JS number division (length is an integer, so the trunc is the
    identity), the truncation to an index is done by [Buffer.alloc]. *)
Definition BitSet_new (length : Z) (buf : option Buffer) : result BitSet :=
  let! b := Buffer_alloc_q (Qmake (length + 7) 8) in
  match buf with
  | Some src => Ok (mkBitSet length (buf_copy src b 0))
  | None => Ok (mkBitSet length b)
  end.

(** [getBit(i)]: [((buf.readUInt8(div) << mod) & 0x80) == 0x80]. *)
Definition getBit (bs : BitSet) (i : Z) : result bool :=
  let div := Z.quot i 8 in
  let md := Z.rem i 8 in
  let! byte := readUInt8 (bs_buf bs) div in
  Ok (Z.land (Z.shiftl byte md) 128 =? 128).

(** [putBit(i, value)] *)
Definition putBit (bs : BitSet) (i : Z) (value : bool) : result BitSet :=
  let div := Z.quot i 8 in
  let md := Z.rem i 8 in
  let! byte := readUInt8 (bs_buf bs) div in
  let nb := if value then Z.lor byte (Z.shiftr 128 md)
            else Z.land byte (Z.lxor 255 (Z.shiftr 128 md)) in
  let! b' := writeUInt8 (bs_buf bs) (Some nb) div in
  Ok (mkBitSet (bs_length bs) b').

Example BitSet_new_13 :
  BitSet_new 13 None = Ok (mkBitSet 13 [0; 0]).
Proof. reflexivity. Qed.

Example getBit_0_msb :
  getBit (mkBitSet 8 [128]) 0 = Ok true /\ getBit (mkBitSet 8 [1]) 7 = Ok true.
Proof. split; reflexivity. Qed.

(* ------------------------------------------------------------------------- *)
(** ** Facts about bytes and buffers *)

Lemma forall_byte (P : Z -> bool) :
  forallb P (map Z.of_nat (seq 0 256)) = true ->
  forall b, 0 <= b < 256 -> P b = true.
Proof.
  intros Hall b Hb. rewrite forallb_forall in Hall. apply Hall.
  apply in_map_iff. exists (Z.to_nat b). split.
  - apply Z2Nat.id. lia.
  - apply in_seq. lia.
Qed.

(** The three bit manipulations of [getBit] and [putBit] on every byte and
    every in-byte position, checked exhaustively. *)
Definition bit_ops_ok (b : Z) : bool :=
  forallb (fun m =>
    Bool.eqb (Z.land (Z.shiftl b m) 128 =? 128) (Z.testbit b (7 - m))
    && (Z.lor b (Z.shiftr 128 m) =? Z.setbit b (7 - m))
    && (Z.land b (Z.lxor 255 (Z.shiftr 128 m)) =? Z.clearbit b (7 - m))
    && is_byte (Z.setbit b (7 - m)) && is_byte (Z.clearbit b (7 - m)))
    (map Z.of_nat (seq 0 8)).

Lemma bit_ops_all : forall b, 0 <= b < 256 -> bit_ops_ok b = true.
Proof. apply forall_byte. vm_compute. reflexivity. Qed.

Lemma bit_ops_at b m :
  0 <= b < 256 -> 0 <= m < 8 ->
  (Z.land (Z.shiftl b m) 128 =? 128) = Z.testbit b (7 - m)
  /\ Z.lor b (Z.shiftr 128 m) = Z.setbit b (7 - m)
  /\ Z.land b (Z.lxor 255 (Z.shiftr 128 m)) = Z.clearbit b (7 - m)
  /\ is_byte (Z.setbit b (7 - m)) = true /\ is_byte (Z.clearbit b (7 - m)) = true.
Proof.
  intros Hb Hm. pose proof (bit_ops_all b Hb) as H. unfold bit_ops_ok in H.
  rewrite forallb_forall in H. specialize (H m).
  assert (Hin : In m (map Z.of_nat (seq 0 8))).
  { apply in_map_iff. exists (Z.to_nat m). split; [apply Z2Nat.id; lia | apply in_seq; lia]. }
  specialize (H Hin). repeat rewrite andb_true_iff in H.
  destruct H as [[[[H1 H2] H3] H4] H5].
  apply Bool.eqb_prop in H1. apply Z.eqb_eq in H2. apply Z.eqb_eq in H3.
  repeat split; assumption.
Qed.

Lemma buf_copy_length src target t :
  (Z.to_nat t <= length target)%nat -> length (buf_copy src target t) = length target.
Proof.
  intros H. unfold buf_copy. rewrite !length_app, !length_firstn, length_skipn. lia.
Qed.

Lemma nth_In_byte (l : Buffer) i :
  Forall (fun b => is_byte b = true) l -> (i < length l)%nat -> 0 <= nth i l 0 < 256.
Proof.
  intros HF Hi. rewrite Forall_forall in HF.
  specialize (HF _ (nth_In l 0 Hi)). unfold is_byte in HF. lia.
Qed.

(* ------------------------------------------------------------------------- *)
(** ** BitSet layout *)

Lemma BitSet_new_ok n buf :
  0 <= n ->
  BitSet_new n buf
  = Ok (mkBitSet n (match buf with
                    | Some src => buf_copy src (repeat 0 (Z.to_nat ((n + 7) / 8))) 0
                    | None => repeat 0 (Z.to_nat ((n + 7) / 8))
                    end)).
Proof.
  intros Hn. unfold BitSet_new, Buffer_alloc_q.
  destruct (Qlt_le_dec (Qmake (n + 7) 8) 0) as [Hq | Hq].
  - unfold Qlt in Hq. simpl in Hq. lia.
  - simpl. destruct buf; reflexivity.
Qed.

Lemma getBit_spec bs i :
  Forall (fun b => is_byte b = true) (bs_buf bs) ->
  0 <= i -> i < 8 * Z.of_nat (length (bs_buf bs)) ->
  getBit bs i = Ok (Z.testbit (nth (Z.to_nat (i / 8)) (bs_buf bs) 0) (7 - i mod 8)).
Proof.
  intros HF Hi Hlt. unfold getBit.
  rewrite Z.quot_div_nonneg, Z.rem_mod_nonneg by lia.
  unfold readUInt8.
  assert (Hd : 0 <= i / 8 < Z.of_nat (length (bs_buf bs))).
  { split; [apply Z.div_pos; lia | apply Z.div_lt_upper_bound; lia]. }
  replace ((0 <=? i / 8) && (i / 8 <? Z.of_nat (length (bs_buf bs)))) with true
    by (symmetry; apply andb_true_iff; split; apply Z.leb_le || apply Z.ltb_lt; lia).
  simpl. f_equal.
  apply bit_ops_at; [apply nth_In_byte; [assumption | lia] | apply Z.mod_pos_bound; lia].
Qed.

Lemma putBit_spec bs i v :
  Forall (fun b => is_byte b = true) (bs_buf bs) ->
  0 <= i -> i < 8 * Z.of_nat (length (bs_buf bs)) ->
  let b := nth (Z.to_nat (i / 8)) (bs_buf bs) 0 in
  putBit bs i v
  = Ok (mkBitSet (bs_length bs)
          (set_nth (Z.to_nat (i / 8))
             (if v then Z.setbit b (7 - i mod 8) else Z.clearbit b (7 - i mod 8))
             (bs_buf bs))).
Proof.
  intros HF Hi Hlt b. unfold putBit.
  rewrite Z.quot_div_nonneg, Z.rem_mod_nonneg by lia.
  unfold readUInt8.
  assert (Hd : 0 <= i / 8 < Z.of_nat (length (bs_buf bs))).
  { split; [apply Z.div_pos; lia | apply Z.div_lt_upper_bound; lia]. }
  replace ((0 <=? i / 8) && (i / 8 <? Z.of_nat (length (bs_buf bs)))) with true
    by (symmetry; apply andb_true_iff; split; apply Z.leb_le || apply Z.ltb_lt; lia).
  cbn [bind]. fold b.
  assert (Hb : 0 <= b < 256) by (apply nth_In_byte; [assumption | lia]).
  destruct (bit_ops_at b (i mod 8) Hb ltac:(apply Z.mod_pos_bound; lia))
    as (_ & Hset & Hclr & Bs & Bc).
  unfold writeUInt8.
  destruct v; [rewrite Hset | rewrite Hclr];
    [unfold is_byte in Bs | unfold is_byte in Bc];
    (replace ((_ <? 0) || (255 <? _)) with false by (symmetry; apply orb_false_iff; split; apply Z.ltb_ge; lia));
    replace ((0 <=? i / 8) && (i / 8 <? Z.of_nat (length (bs_buf bs)))) with true
      by (symmetry; apply andb_true_iff; split; apply Z.leb_le || apply Z.ltb_lt; lia);
    reflexivity.
Qed.

(** C6. A BitSet constructed with any length [n >= 0] (aligned or not, with
    or without an initial buffer) has a buffer of exactly ceil(n/8) bytes;
    on a BitSet whose bytes cover its length, [getBit i] reads and
    [putBit i v] writes bit [7 - i mod 8] of byte [i / 8] and nothing else,
    i.e. bits are MSB-first (bit 0 is the 0x80 bit of byte 0). *)
Theorem BitSet_ceil_bytes_msb_first :
  (forall n buf, 0 <= n ->
     exists bs, BitSet_new n buf = Ok bs /\ bs_length bs = n
       /\ 8 * (Z.of_nat (length (bs_buf bs)) - 1) < n <= 8 * Z.of_nat (length (bs_buf bs)))
  /\ (forall bs i v,
       Forall (fun b => is_byte b = true) (bs_buf bs) ->
       0 <= i < bs_length bs -> bs_length bs <= 8 * Z.of_nat (length (bs_buf bs)) ->
       let b := nth (Z.to_nat (i / 8)) (bs_buf bs) 0 in
       getBit bs i = Ok (Z.testbit b (7 - i mod 8))
       /\ putBit bs i v
          = Ok (mkBitSet (bs_length bs)
                  (set_nth (Z.to_nat (i / 8))
                     (if v then Z.setbit b (7 - i mod 8) else Z.clearbit b (7 - i mod 8))
                     (bs_buf bs)))).
Proof.
  split.
  - intros n buf Hn. rewrite (BitSet_new_ok n buf Hn).
    eexists. split; [reflexivity|]. cbn [bs_length bs_buf]. split; [reflexivity|].
    replace (length _) with (Z.to_nat ((n + 7) / 8))
      by (destruct buf; [rewrite buf_copy_length; rewrite repeat_length; lia
                        | rewrite repeat_length; reflexivity]).
    rewrite Z2Nat.id by (apply Z.div_pos; lia).
    pose proof (Z.div_mod (n + 7) 8 ltac:(lia)).
    pose proof (Z.mod_pos_bound (n + 7) 8 ltac:(lia)). lia.
  - intros bs i v HF Hi Hn b. split.
    + apply getBit_spec; lia || assumption.
    + apply putBit_spec; lia || assumption.
Qed.

Lemma BitSet_ceil_bytes_msb_first_witness :
  (exists bs, BitSet_new 13 None = Ok bs /\ bs_length bs = 13
     /\ 8 * (Z.of_nat (length (bs_buf bs)) - 1) < 13 <= 8 * Z.of_nat (length (bs_buf bs)))
  /\ getBit (mkBitSet 13 [128; 4]) 0 = Ok (Z.testbit 128 7).
Proof.
  split.
  - apply (proj1 BitSet_ceil_bytes_msb_first 13 None). lia.
  - apply (proj1 (proj2 BitSet_ceil_bytes_msb_first (mkBitSet 13 [128; 4]) 0 true
                  ltac:(repeat constructor) ltac:(simpl; lia) ltac:(simpl; lia))).
Defined.

(* ------------------------------------------------------------------------- *)
(** * Piece store (src/piece.ts, the BitSet version) *)

Definition subPieceLength : Z := 16384.

(** The state of a [Piece] object. [subPieceCompleted] is the BitSet field
    [_subPieceCompleted]. [saveSubPiece] reads and writes
    [this._subPieceCompleted[subPieceIndex]]: on a BitSet object (not an
    array) that is an ordinary JS property of the object, distinct from the
    bits of its buffer; [subPieceCompletedProps] lists the indices whose
    property has been assigned [true] (no other value is ever assigned, and
    a missing property reads as [undefined]). *)
Record Piece := mkPiece {
  pieceIndex : Z;
  pieceLength : Z;
  pieceHash : string;
  pieceCache : option Buffer;
  subPieceCompleted : BitSet;
  subPieceCompletedProps : list Z;
  subPieceCompletedCount : Z
}.

(** [get completed()] *)
Definition completed (p : Piece) : bool :=
  subPieceCompletedCount p =? bs_length (subPieceCompleted p).

(** [get cached()] *)
Definition cached (p : Piece) : bool :=
  match pieceCache p with Some _ => true | None => false end.

(** [get subPieceTotalCount()] *)
Definition subPieceTotalCount (p : Piece) : Z := bs_length (subPieceCompleted p).

(** [clearCache()] *)
Definition clearCache (p : Piece) : Piece :=
  mkPiece (pieceIndex p) (pieceLength p) (pieceHash p) None
          (subPieceCompleted p) (subPieceCompletedProps p) (subPieceCompletedCount p).

(** An attempt of [writePieceToFile()] on the piece's buffer, and whether it
    returned normally ([true]) or threw. *)
Record PieceWrite := mkPieceWrite { pw_index : Z; pw_data : Buffer; pw_ok : bool }.

Section PieceStore.

(** The file system and SHA-1, as seen by a piece:
    - [disk_piece_verified i]: in the constructor, [readPieceFromFile()]
      returned normally and the SHA-1 of the bytes read equals the hash;
    - [sha1_matches i buf]: the upper-cased SHA-1 hex digest of [buf]
      equals [state.torrent.pieces[i].toLocaleUpperCase()];
    - [write_piece_ok i buf]: [writePieceToFile()] returns without throwing. *)
Variable disk_piece_verified : Z -> bool.
Variable sha1_matches : Z -> Buffer -> bool.
Variable write_piece_ok : Z -> Buffer -> bool.

(** [new Piece(pieceIndex, pieceLength, pieceHash)] *)
Definition Piece_new (pieceIndex pieceLength : Z) (pieceHash : string) : result Piece :=
  let! bs := BitSet_new (Z.quot (pieceLength + subPieceLength - 1) subPieceLength) None in
  if disk_piece_verified pieceIndex
  then Ok (mkPiece pieceIndex pieceLength pieceHash None
             (mkBitSet (bs_length bs) (buf_fill (bs_buf bs) 255)) [] (bs_length bs))
  else Ok (mkPiece pieceIndex pieceLength pieceHash None bs [] 0).

(** [saveSubPiece(subPieceData, subPieceOffset)]; the offset is the block
    offset of a decoded PIECE message (a uint32). Returns the new state and
    the [writePieceToFile()] attempts made. *)
Definition saveSubPiece (p : Piece) (subPieceData : Buffer) (subPieceOffset : Z)
  : result (Piece * list PieceWrite) :=
  if pieceLength p <? subPieceOffset + Z.of_nat (length subPieceData)
  then Throw "received piece length overflow"
  else
    let subPieceIndex := Z.quot subPieceOffset subPieceLength in
    (* write sub piece to buffer *)
    let cache := match pieceCache p with
                 | Some c => c
                 | None => Buffer_alloc (pieceLength p)
                 end in
    if negb (existsb (Z.eqb subPieceIndex) (subPieceCompletedProps p)) then
      let props := subPieceIndex :: subPieceCompletedProps p in
      let count := subPieceCompletedCount p + 1 in
      let cache := buf_copy subPieceData cache subPieceOffset in
      (* write piece to file if completed *)
      if count =? bs_length (subPieceCompleted p) then
        let matched := sha1_matches (pieceIndex p) cache in
        let written := matched && write_piece_ok (pieceIndex p) cache in
        let writes := if matched
                      then [mkPieceWrite (pieceIndex p) cache written] else [] in
        if written
        then Ok (mkPiece (pieceIndex p) (pieceLength p) (pieceHash p) (Some cache)
                   (subPieceCompleted p) props count, writes)
        else (* cannot write to file -- reset the piece *)
          Ok (mkPiece (pieceIndex p) (pieceLength p) (pieceHash p) (Some cache)
                (mkBitSet (bs_length (subPieceCompleted p))
                          (buf_fill (bs_buf (subPieceCompleted p)) 0))
                props 0, writes)
      else
        Ok (mkPiece (pieceIndex p) (pieceLength p) (pieceHash p) (Some cache)
              (subPieceCompleted p) props count, [])
    else
      Ok (mkPiece (pieceIndex p) (pieceLength p) (pieceHash p) (Some cache)
            (subPieceCompleted p) (subPieceCompletedProps p)
            (subPieceCompletedCount p), []).

End PieceStore.

(** [getFirstIncompletedSubPiece(subPieceOffsetHint)]: the loop over
    [subPieceIndex = 0 .. _subPieceCompleted.length - 1]. *)
Fixpoint first_incompleted_loop (bs : BitSet) (len hint : Z) (idxs : list Z)
  : result (Z * Z) :=
  match idxs with
  | [] => Throw "unreachable -- cannot get first incompleted sub piece"
  | i :: rest =>
      let! bit := getBit bs i in
      if negb bit && (hint <=? i * subPieceLength) then
        let off := i * subPieceLength in
        Ok (off, Z.min subPieceLength (len - off))
      else first_incompleted_loop bs len hint rest
  end.

Definition getFirstIncompletedSubPiece (p : Piece) (subPieceOffsetHint : Z) : result (Z * Z) :=
  first_incompleted_loop (subPieceCompleted p) (pieceLength p) subPieceOffsetHint
    (map Z.of_nat (seq 0 (Z.to_nat (bs_length (subPieceCompleted p))))).

(** Number of set bits among the first [bs_length] bits of a BitSet. *)
Definition bitset_popcount (bs : BitSet) : Z :=
  Z.of_nat (length (filter (fun i => match getBit bs (Z.of_nat i) with
                                     | Ok b => b | Throw _ => false end)
                           (seq 0 (Z.to_nat (bs_length bs))))).

Example Piece_new_32768 :
  Piece_new (fun _ => false) 0 32768 "h"
  = Ok (mkPiece 0 32768 "h" None (mkBitSet 2 [0]) [] 0).
Proof. reflexivity. Qed.

(* ------------------------------------------------------------------------- *)
(** ** Properties of the piece store *)

Section PieceStoreFacts.

Variable sha1_matches : Z -> Buffer -> bool.
Variable write_piece_ok : Z -> Buffer -> bool.

Lemma saveSubPiece_in_bounds p (data : Buffer) off :
  off + Z.of_nat (length data) <= pieceLength p ->
  (pieceLength p <? off + Z.of_nat (length data)) = false.
Proof. intros H. apply Z.ltb_ge. lia. Qed.

(** A save of a sub-piece whose index property is already set, on a piece
    holding a buffer, changes nothing and writes nothing. *)
Lemma saveSubPiece_marked p (data : Buffer) off c :
  off + Z.of_nat (length data) <= pieceLength p ->
  pieceCache p = Some c ->
  existsb (Z.eqb (Z.quot off subPieceLength)) (subPieceCompletedProps p) = true ->
  saveSubPiece sha1_matches write_piece_ok p data off = Ok (p, []).
Proof.
  intros Hb Hc Hm. unfold saveSubPiece.
  rewrite (saveSubPiece_in_bounds p data off Hb), Hc, Hm. simpl.
  destruct p; simpl in *; subst; reflexivity.
Qed.

(** Every in-bounds save returns normally with a cached piece whose
    property for the saved index is set, and keeps the piece's length. *)
Lemma saveSubPiece_marks p (data : Buffer) off :
  off + Z.of_nat (length data) <= pieceLength p ->
  exists p1 w1, saveSubPiece sha1_matches write_piece_ok p data off = Ok (p1, w1)
    /\ pieceLength p1 = pieceLength p
    /\ (exists c, pieceCache p1 = Some c)
    /\ existsb (Z.eqb (Z.quot off subPieceLength)) (subPieceCompletedProps p1) = true.
Proof.
  intros Hb. unfold saveSubPiece. rewrite (saveSubPiece_in_bounds p data off Hb).
  destruct (existsb (Z.eqb (Z.quot off subPieceLength)) (subPieceCompletedProps p)) eqn:Hm;
    simpl.
  - do 2 eexists. split; [reflexivity|]. simpl. split; [reflexivity|]. split; [eauto|].
    exact Hm.
  - destruct (_ =? _); [destruct (sha1_matches _ _ && write_piece_ok _ _)|];
      do 2 eexists; (split; [reflexivity|]); simpl; (split; [reflexivity|]);
      (split; [eauto|]); rewrite Z.eqb_refl; reflexivity.
Qed.

End PieceStoreFacts.

(** C5. Save idempotence: for every piece state, data and in-bounds offset,
    [saveSubPiece(b, off)] returns normally, and a second
    [saveSubPiece(b, off)] on the resulting state returns the very same state
    (BitSet, index properties, count, buffer) and makes no write to the
    files; in particular the completed count is not incremented again. *)
Theorem saveSubPiece_idempotent :
  forall (sha1_matches write_piece_ok : Z -> Buffer -> bool) p (data : Buffer) off,
  0 <= off -> off + Z.of_nat (length data) <= pieceLength p ->
  exists p1 w1,
    saveSubPiece sha1_matches write_piece_ok p data off = Ok (p1, w1)
    /\ saveSubPiece sha1_matches write_piece_ok p1 data off = Ok (p1, []).
Proof.
  intros sm wo p data off _ Hb.
  destruct (saveSubPiece_marks sm wo p data off Hb) as (p1 & w1 & Hs & Hl & [c Hc] & Hm).
  exists p1, w1. split; [exact Hs|].
  apply (saveSubPiece_marked sm wo p1 data off c); [lia | exact Hc | exact Hm].
Qed.

Lemma saveSubPiece_idempotent_witness :
  exists p1 w1,
    saveSubPiece (fun _ _ => true) (fun _ _ => true)
      (mkPiece 0 16 "h" None (mkBitSet 1 [0]) [] 0) [1; 2] 0 = Ok (p1, w1)
    /\ saveSubPiece (fun _ _ => true) (fun _ _ => true) p1 [1; 2] 0 = Ok (p1, []).
Proof.
  apply (saveSubPiece_idempotent (fun _ _ => true) (fun _ _ => true)
           (mkPiece 0 16 "h" None (mkBitSet 1 [0]) [] 0) [1; 2] 0);
    simpl; lia.
Defined.

(** C2 (fails). From a freshly constructed piece of two sub-pieces (not on
    disk), saving the first sub-piece raises the completed count to 1 while
    no bit of the BitSet [_subPieceCompleted] is set: the assignment
    [this._subPieceCompleted[0] = true] creates a property of the BitSet
    object instead of calling [putBit]. *)
Theorem saveSubPiece_count_differs_from_popcount :
  Piece_new (fun _ => false) 0 32768 "h"
    = Ok (mkPiece 0 32768 "h" None (mkBitSet 2 [0]) [] 0)
  /\ match saveSubPiece (fun _ _ => false) (fun _ _ => false)
            (mkPiece 0 32768 "h" None (mkBitSet 2 [0]) [] 0) (Buffer_alloc 16384) 0 with
     | Ok (p1, writes) =>
         subPieceCompleted p1 = mkBitSet 2 [0]
         /\ subPieceCompletedProps p1 = [0]
         /\ subPieceCompletedCount p1 = 1
         /\ bitset_popcount (subPieceCompleted p1) = 0
     | Throw _ => False
     end.
Proof. split; [reflexivity|]. vm_compute. repeat split. Qed.

(** The outcome of a completing save whose verification or write fails, in
    general: the BitSet's bytes are all zero, the count is 0, the buffer is
    kept; the index properties set so far are kept as well. *)
Lemma saveSubPiece_reset_on_failure :
  forall (sha1_matches write_piece_ok : Z -> Buffer -> bool) p (data : Buffer) off,
  off + Z.of_nat (length data) <= pieceLength p ->
  let idx := Z.quot off subPieceLength in
  let cache := buf_copy data (match pieceCache p with
                              | Some c => c | None => Buffer_alloc (pieceLength p) end) off in
  existsb (Z.eqb idx) (subPieceCompletedProps p) = false ->
  subPieceCompletedCount p + 1 = bs_length (subPieceCompleted p) ->
  sha1_matches (pieceIndex p) cache && write_piece_ok (pieceIndex p) cache = false ->
  exists writes,
    saveSubPiece sha1_matches write_piece_ok p data off
    = Ok (mkPiece (pieceIndex p) (pieceLength p) (pieceHash p) (Some cache)
            (mkBitSet (bs_length (subPieceCompleted p))
                      (repeat 0 (length (bs_buf (subPieceCompleted p)))))
            (idx :: subPieceCompletedProps p) 0, writes).
Proof.
  intros sm wo p data off Hb idx cache Hm Hc Hf.
  unfold saveSubPiece. rewrite (saveSubPiece_in_bounds p data off Hb).
  fold idx. rewrite Hm. cbv zeta. fold cache. rewrite Hc, Z.eqb_refl. simpl negb.
  cbv iota. rewrite Hf. eexists. reflexivity.
Qed.

Definition buf_eqb (a b : Buffer) : bool :=
  if list_eq_dec Z.eq_dec a b then true else false.

(** C4 (fails). A one-sub-piece piece (a 16-byte last piece) whose expected
    content is sixteen bytes 7: a corrupted sub-piece completes it, the
    SHA-1 check fails and the piece is reset (BitSet bytes zero, count 0,
    buffer kept); the BitSet still reports sub-piece 0 as missing, so it is
    requested again, but when the correct data arrives [saveSubPiece]
    discards it (the index property 0 stays set): nothing is written, the
    count stays 0, and the piece can never be downloaded again. *)
Theorem saveSubPiece_reset_blocks_redownload :
  let sm := fun (_ : Z) (c : Buffer) => buf_eqb c (repeat 7 16) in
  let fresh := mkPiece 0 16 "h" None (mkBitSet 1 [0]) [] 0 in
  let reset := mkPiece 0 16 "h" (Some (repeat 0 16)) (mkBitSet 1 [0]) [0] 0 in
  Piece_new (fun _ => false) 0 16 "h" = Ok fresh
  /\ saveSubPiece sm (fun _ _ => true) fresh (repeat 0 16) 0 = Ok (reset, [])
  /\ cached reset = true
  /\ getFirstIncompletedSubPiece reset 0 = Ok (0, 16)
  /\ saveSubPiece sm (fun _ _ => true) reset (repeat 7 16) 0 = Ok (reset, [])
  /\ completed reset = false.
Proof. vm_compute. repeat split. Qed.

(** C10 (fails). [saveSubPiece] has no alignment check, but an unaligned
    save does not mark its sub-piece complete, and may drop its data:
    - on a fresh piece of two sub-pieces (not on disk), [saveSubPiece([9],
      100)] returns normally and copies the byte at offset 100, yet bit 0 of
      the mask stays clear ([this._subPieceCompleted[0] = true] sets a
      property of the BitSet object, as in C2), so
      [getFirstIncompletedSubPiece(0)] still returns sub-piece 0;
    - on a one-sub-piece piece reset after a failed SHA-1 check (the C4
      scenario), whose index property 0 stays set, [saveSubPiece([9], 5)]
      returns normally but copies nothing. *)
Theorem saveSubPiece_unaligned_not_marked (sha1_matches write_piece_ok : Z -> Buffer -> bool) :
  Piece_new (fun _ => false) 0 32768 "h"
    = Ok (mkPiece 0 32768 "h" None (mkBitSet 2 [0]) [] 0)
  /\ match saveSubPiece sha1_matches write_piece_ok
             (mkPiece 0 32768 "h" None (mkBitSet 2 [0]) [] 0) [9] 100 with
     | Ok (p1, writes) =>
         option_map (fun c => nth 100 c 0) (pieceCache p1) = Some 9
         /\ getBit (subPieceCompleted p1) 0 = Ok false
         /\ getFirstIncompletedSubPiece p1 0 = Ok (0, 16384)
         /\ writes = []
     | Throw _ => False
     end
  /\ Piece_new (fun _ => false) 0 16 "h" = Ok (mkPiece 0 16 "h" None (mkBitSet 1 [0]) [] 0)
  /\ saveSubPiece (fun _ _ => false) (fun _ _ => true)
       (mkPiece 0 16 "h" None (mkBitSet 1 [0]) [] 0) (repeat 0 16) 0
     = Ok (mkPiece 0 16 "h" (Some (repeat 0 16)) (mkBitSet 1 [0]) [0] 0, [])
  /\ saveSubPiece sha1_matches write_piece_ok
       (mkPiece 0 16 "h" (Some (repeat 0 16)) (mkBitSet 1 [0]) [0] 0) [9] 5
     = Ok (mkPiece 0 16 "h" (Some (repeat 0 16)) (mkBitSet 1 [0]) [0] 0, [])
  /\ nth 5 (repeat 0 16) 0 = 0.
Proof.
  split; [reflexivity|]. split.
  - vm_compute. repeat split.
  - repeat split.
Qed.

(* ------------------------------------------------------------------------- *)
(** * Wire codec (src/peerMessage.ts) *)

(** JS strings are modelled as byte strings; the strings of the codec
    (info-hash hex digests, the peer id, the protocol name) are ASCII. *)

Inductive PeerMessage :=
| Handshake (infoHash peerId : string)
| KeepAlive
| Choke
| Unchoke
| Interested
| NotInterested
| Have (pieceNumber : Z)
| Bitfield (bitfield : Buffer)
| Request (pieceIndex blockOffset pieceLength : Z)
| PieceMsg (pieceIndex blockOffset : Z) (pieceData : Buffer)
| Cancel (pieceIndex blockOffset pieceLength : Z).

(** [PeerMessageType] ids of the regular messages. *)
Definition messageType (m : PeerMessage) : Z :=
  match m with
  | Handshake _ _ => -100 | KeepAlive => -101
  | Choke => 0 | Unchoke => 1 | Interested => 2 | NotInterested => 3
  | Have _ => 4 | Bitfield _ => 5 | Request _ _ _ => 6 | PieceMsg _ _ _ => 7
  | Cancel _ _ _ => 8
  end.

Definition bytes_of_string (s : string) : Buffer :=
  map (fun c => Z.of_nat (nat_of_ascii c)) (list_ascii_of_string s).

(** [buf.toString(enc, s, e)] on ASCII bytes. *)
Definition string_of_bytes (b : Buffer) : string :=
  string_of_list_ascii (map (fun z => ascii_of_nat (Z.to_nat z)) b).

(** [buf.write(string, offset)]: the bytes of the string, truncated to the
    room left in the buffer. *)
Definition buf_write (buf : Buffer) (s : string) (off : Z) : Buffer :=
  buf_copy (bytes_of_string s) buf off.

Definition ascii_toUpper (c : ascii) : ascii :=
  let n := nat_of_ascii c in
  if (97 <=? n)%nat && (n <=? 122)%nat then ascii_of_nat (n - 32) else c.

(** [String.prototype.toUpperCase] on ASCII. *)
Fixpoint str_toUpper (s : string) : string :=
  match s with
  | EmptyString => EmptyString
  | String c r => String (ascii_toUpper c) (str_toUpper r)
  end.

(** The regex class [[0-9A-F]]. *)
Definition is_upper_hex (c : ascii) : bool :=
  let n := nat_of_ascii c in
  ((48 <=? n) && (n <=? 57))%nat || ((65 <=? n) && (n <=? 70))%nat.

(** [s.match(/[0-9A-F]{20}/)] succeeds. *)
Fixpoint hex_run_at (k : nat) (s : string) : bool :=
  match k, s with
  | O, _ => true
  | S k', String c r => is_upper_hex c && hex_run_at k' r
  | S _, EmptyString => false
  end.

Fixpoint has_hex_run (k : nat) (s : string) : bool :=
  hex_run_at k s || match s with
                    | EmptyString => false
                    | String _ r => has_hex_run k r
                    end.

(** The value of a hex digit, any case. *)
Definition hex_value (c : ascii) : option Z :=
  let n := nat_of_ascii c in
  if ((48 <=? n) && (n <=? 57))%nat then Some (Z.of_nat n - 48)
  else if ((65 <=? n) && (n <=? 70))%nat then Some (Z.of_nat n - 55)
  else if ((97 <=? n) && (n <=? 102))%nat then Some (Z.of_nat n - 87)
  else None.

Definition is_js_space (c : ascii) : bool :=
  let n := nat_of_ascii c in ((9 <=? n) && (n <=? 13))%nat || (n =? 32)%nat || (n =? 160)%nat.

Fixpoint trim_start (s : string) : string :=
  match s with
  | String c r => if is_js_space c then trim_start r else s
  | EmptyString => s
  end.

Fixpoint hex_prefix_value (s : string) (acc : option Z) : option Z :=
  match s with
  | String c r =>
      match hex_value c with
      | Some d => hex_prefix_value r (Some (match acc with Some a => a | None => 0 end * 16 + d))
      | None => acc
      end
  | EmptyString => acc
  end.

(** [parseInt(s, 16)]; [None] is NaN. *)
Definition parseInt16 (s : string) : option Z :=
  let s := trim_start s in
  let '(sign, s) := match s with
                    | String "-" r => (-1, r)
                    | String "+" r => (1, r)
                    | _ => (1, s)
                    end in
  let s := match s with
           | String "0" (String c r) =>
               if (Ascii.eqb c "x" || Ascii.eqb c "X")%bool then r else s
           | _ => s
           end in
  match hex_prefix_value s None with
  | Some v => Some (sign * v)
  | None => None
  end.

(** [getRawInfoHash(hexDigestedInfoHash)] *)
Definition getRawInfoHash (h : string) : result Buffer :=
  if negb (has_hex_run 20 (str_toUpper h)) then Throw "invalid hex digested info hash"
  else fold_left (fun acc i =>
         let! b := acc in
         writeUInt8 b (parseInt16 (substring (2 * i) 2 h)) (Z.of_nat i))
       (seq 0 20) (Ok (Buffer_alloc 20)).

Definition hex_digit_lower (d : Z) : ascii :=
  ascii_of_nat (Z.to_nat (if d <? 10 then 48 + d else 87 + d)).

(** [getHexDigestedInfoHash(rawInfoHash)]: [toString(16).padStart(2, "0")]
    per byte, then upper-cased. *)
Definition getHexDigestedInfoHash (raw : Buffer) : result string :=
  if negb (Nat.eqb (length raw) 20) then Throw "invalid raw info hash"
  else Ok (str_toUpper
             (string_of_list_ascii
                (flat_map (fun b => [hex_digit_lower (b / 16); hex_digit_lower (b mod 16)]) raw))).

(** [encodeMessage(message)] *)
Definition encodeMessage (m : PeerMessage) : result Buffer :=
  match m with
  | Handshake infoHash peerId =>
      let buffer := Buffer_alloc 68 in
      let! buffer := writeUInt8 buffer (Some 19) 0 in
      let buffer := buf_write buffer "BitTorrent protocol" 1 in
      let! raw := getRawInfoHash infoHash in
      let buffer := buf_copy raw buffer 28 in
      Ok (buf_write buffer peerId 48)
  | KeepAlive => Ok (Buffer_alloc 4)
  | _ =>
      let! buffer :=
        match m with
        | Choke | Unchoke | Interested | NotInterested => Ok (Buffer_alloc 5)
        | Request pieceIndex blockOffset pieceLength
        | Cancel pieceIndex blockOffset pieceLength =>
            let buffer := Buffer_alloc 17 in
            let! buffer := writeUInt32BE buffer pieceIndex 5 in
            let! buffer := writeUInt32BE buffer blockOffset 9 in
            writeUInt32BE buffer pieceLength 13
        | Have pieceNumber =>
            writeUInt32BE (Buffer_alloc 9) pieceNumber 5
        | Bitfield bitfield =>
            let buffer := Buffer_alloc (5 + Z.of_nat (length bitfield)) in
            Ok (buf_copy bitfield buffer 5)
        | PieceMsg pieceIndex blockOffset pieceData =>
            let buffer := Buffer_alloc (13 + Z.of_nat (length pieceData)) in
            (* buffer.writeUInt32BE(5, pieceMessage.pieceIndex) *)
            let! buffer := writeUInt32BE buffer 5 pieceIndex in
            (* buffer.writeUInt32BE(9, pieceMessage.blockOffset) *)
            let! buffer := writeUInt32BE buffer 9 blockOffset in
            Ok (buf_copy pieceData buffer 13)
        | _ => Throw "encoded invalid peer message type"
        end in
      let! buffer := writeUInt32BE buffer (Z.of_nat (length buffer) - 4) 0 in
      writeUInt8 buffer (Some (messageType m)) 4
  end.

(** [decodeMessage(buffer)]: [Ok None] is a [null] (or [undefined]) result,
    i.e. more bytes are needed. *)
Definition decodeMessage (buffer : Buffer) : result (option (Z * PeerMessage)) :=
  let len := Z.of_nat (length buffer) in
  if len <? 4 then Ok None
  else
    let! l := readUInt32BE buffer 0 in
    let messageLength := l + 4 in
    if messageLength =? 323119476 + 4 then (* "\x19Bit" -- prefix of handshake message *)
      if len <? 68 then Ok None
      else
        let! infoHash := getHexDigestedInfoHash (buf_slice buffer 28 48) in
        Ok (Some (68, Handshake infoHash (string_of_bytes (buf_slice buffer 48 68))))
    else if messageLength =? 4 then Ok (Some (4, KeepAlive))
    else
      let! checked :=
        if 5 <=? len then
          let! t := readUInt8 buffer 4 in
          if (0 <=? t) && (t <=? 8) then Ok tt
          else Throw "decoded invalid peer message type"
        else Ok tt in
      if len <? messageLength then Ok None
      else
        let! t := readUInt8 buffer 4 in
        match t with
        | 0 => Ok (Some (messageLength, Choke))
        | 1 => Ok (Some (messageLength, Unchoke))
        | 2 => Ok (Some (messageLength, Interested))
        | 3 => Ok (Some (messageLength, NotInterested))
        | 6 | 8 =>
            let! a := readUInt32BE buffer 5 in
            let! b := readUInt32BE buffer 9 in
            let! c := readUInt32BE buffer 13 in
            Ok (Some (messageLength, if t =? 6 then Request a b c else Cancel a b c))
        | 4 =>
            let! a := readUInt32BE buffer 5 in
            Ok (Some (messageLength, Have a))
        | 5 => Ok (Some (messageLength, Bitfield (buf_slice buffer 5 len)))
        | 7 =>
            let! a := readUInt32BE buffer 5 in
            let! b := readUInt32BE buffer 9 in
            Ok (Some (messageLength, PieceMsg a b (buf_slice buffer 13 messageLength)))
        | _ => Throw "unreachable"
        end.

Example encode_interested : encodeMessage Interested = Ok [0; 0; 0; 1; 2].
Proof. reflexivity. Qed.

Example roundtrip_request :
  decodeMessage [0; 0; 0; 13; 6; 0; 0; 0; 3; 0; 0; 64; 0; 0; 0; 64; 0]
  = Ok (Some (17, Request 3 16384 16384))
  /\ encodeMessage (Request 3 16384 16384)
     = Ok [0; 0; 0; 13; 6; 0; 0; 0; 3; 0; 0; 64; 0; 0; 0; 64; 0].
Proof. split; reflexivity. Qed.

Example roundtrip_handshake :
  let ih := "0123456789ABCDEF0123456789ABCDEF01234567"%string in
  match encodeMessage (Handshake ih "-BT0001-000000000000") with
  | Ok b => decodeMessage b = Ok (Some (68, Handshake ih "-BT0001-000000000000"))
  | Throw _ => False
  end.
Proof. vm_compute. reflexivity. Qed.

(** C1 (fails). The PIECE encoder calls [writeUInt32BE(5, pieceIndex)] and
    [writeUInt32BE(9, blockOffset)]: value and offset are swapped. For
    PIECE(pieceIndex 1, blockOffset 0, one byte 0xAB) the frame carries
    piece index 0, so the decoder returns PIECE(0, 0, [0xAB]); for
    PIECE(100, 0, [0xAB]) the encoder throws a RangeError. *)
Theorem encode_decode_piece_mismatch :
  encodeMessage (PieceMsg 1 0 [171]) = Ok [0; 0; 0; 10; 7; 0; 0; 0; 0; 0; 0; 0; 0; 171]
  /\ decodeMessage [0; 0; 0; 10; 7; 0; 0; 0; 0; 0; 0; 0; 0; 171]
     = Ok (Some (14, PieceMsg 0 0 [171]))
  /\ PieceMsg 0 0 [171] <> PieceMsg 1 0 [171]
  /\ encodeMessage (PieceMsg 100 0 [171]) = Throw "ERR_OUT_OF_RANGE".
Proof. split; [reflexivity|]. split; [reflexivity|]. split; [discriminate | reflexivity]. Qed.

(* ------------------------------------------------------------------------- *)
(** * File layout lookup ([Piece.findFileContainingOffset], src/piece.ts) *)

(** A file of the torrent descriptor ([state.torrent.files]). *)
Record TorrentFile := mkTorrentFile { file_name : string; file_offset : Z; file_length : Z }.

(** The [while (l < r)] loop; [m] is [undefined] ([None]) until the first
    iteration. Each iteration strictly shrinks [r - l], so [length files + 1]
    rounds of fuel never run out. A [files[m]] outside the array would make
    [file.offset] throw. *)
Fixpoint find_loop (files : list TorrentFile) (offset l r : Z) (m : option Z) (fuel : nat)
  : result (option Z) :=
  match fuel with
  | O => Ok m
  | S fuel' =>
      if l <? r then
        let m := Z.quot (l + r) 2 in
        match nth_error files (Z.to_nat m) with
        | None => Throw "TypeError: Cannot read properties of undefined"
        | Some file =>
            if offset <? file_offset file then find_loop files offset l (m - 1) (Some m) fuel'
            else if file_offset file + file_length file <=? offset
            then find_loop files offset (m + 1) r (Some m) fuel'
            else Ok (Some m)
        end
      else Ok m
  end.

Definition findFileContainingOffset (files : list TorrentFile) (offset : Z) : result (option Z) :=
  find_loop files offset 0 (Z.of_nat (length files)) None (S (length files)).

(** The layout of the spec's end-to-end scenarios: a 20000-byte file A
    followed by a 45536-byte file B. *)
Definition scenario_files : list TorrentFile :=
  [mkTorrentFile "A" 0 20000; mkTorrentFile "B" 20000 45536].

(** C3 (fails). On that sorted, contiguous layout, the lookup of offset 0
    (the first byte of piece 0, inside file A at index 0) returns index 1:
    the first probe [m = 1] has [files[1].offset > 0], so [r = m - 1 = 0]
    ends the loop with [m] still 1. *)
Theorem findFileContainingOffset_wrong_file :
  findFileContainingOffset scenario_files 0 = Ok (Some 1)
  /\ file_offset (mkTorrentFile "A" 0 20000) <= 0 < 0 + 20000
  /\ ~ (file_offset (mkTorrentFile "B" 20000 45536) <= 0).
Proof. split; [reflexivity|]. simpl. lia. Qed.

(* ------------------------------------------------------------------------- *)
(** * Tracker query URL ([Tracker.getQueryUrl], src/tracker.ts) *)

Local Open Scope string_scope.
Local Open Scope Z_scope.

(** [config.peerId] *)
Definition config_peerId : string := "-BT0001-000000000000".

(** [s.replace(/[0-9A-F]{2}/g, hh => `%${hh}`)]: leftmost non-overlapping
    matches, scanning left to right. *)
Fixpoint replace_hex_pairs (s : string) : string :=
  match s with
  | String a s' =>
      match s' with
      | String b rest =>
          if is_upper_hex a && is_upper_hex b
          then String "%" (String a (String b (replace_hex_pairs rest)))
          else String a (replace_hex_pairs s')
      | EmptyString => s
      end
  | EmptyString => s
  end.

(** [String(n)] for a non-negative integer below 10^21 (decimal digits). *)
Fixpoint decimal_digits (fuel : nat) (n : Z) (acc : string) : string :=
  match fuel with
  | O => acc
  | S f =>
      let acc := String (ascii_of_nat (Z.to_nat (48 + n mod 10))) acc in
      if n <? 10 then acc else decimal_digits f (n / 10) acc
  end.

Definition js_number_to_string (n : Z) : string := decimal_digits 22 n "".

(** [getQueryUrl()] for tracker URL [trackerUrl], [state.torrent.infoHash]
    [infoHash] and [state.torrent.length] [length]; JS [+] associates to the
    left. *)
Definition getQueryUrl (trackerUrl infoHash : string) (length : Z) : string :=
  let infoHashEncoded := replace_hex_pairs (str_toUpper infoHash) in
  ((((((((trackerUrl ++ "?info_hash=") ++ infoHashEncoded)
         ++ "&peer_id=") ++ config_peerId)
       ++ "&port=6881") ++ "&downloaded=0") ++ "&uploaded=0")
     ++ "&left=" ++ js_number_to_string length) ++ "&event=started".

Definition hex_digit_upper (d : Z) : ascii :=
  ascii_of_nat (Z.to_nat (if d <? 10 then 48 + d else 55 + d)).

(** The uppercase hex digest of a byte string. *)
Fixpoint hex_digest_upper (h : Buffer) : string :=
  match h with
  | [] => ""
  | b :: t => String (hex_digit_upper (b / 16)) (String (hex_digit_upper (b mod 16))
                                                      (hex_digest_upper t))
  end.

(** The same digest with every two hex characters prefixed by '%'. *)
Fixpoint percent_hex_digest (h : Buffer) : string :=
  match h with
  | [] => ""
  | b :: t => "%" ++ String (hex_digit_upper (b / 16)) (String (hex_digit_upper (b mod 16)) "")
              ++ percent_hex_digest t
  end.

Lemma str_append_assoc (a b c : string) : (a ++ b) ++ c = a ++ (b ++ c).
Proof. induction a as [|x a IH]; simpl; [reflexivity | now rewrite IH]. Qed.

Lemma hex_digit_upper_is_hex d : 0 <= d < 16 -> is_upper_hex (hex_digit_upper d) = true.
Proof.
  intros Hd.
  assert (H : forallb (fun d => is_upper_hex (hex_digit_upper d)) (map Z.of_nat (seq 0 16)) = true)
    by reflexivity.
  rewrite forallb_forall in H. apply H. apply in_map_iff. exists (Z.to_nat d).
  split; [apply Z2Nat.id; lia | apply in_seq; lia].
Qed.

Lemma replace_hex_pairs_digest h :
  Forall (fun b => is_byte b = true) h ->
  replace_hex_pairs (hex_digest_upper h) = percent_hex_digest h.
Proof.
  induction h as [|b t IH]; intros HF; [reflexivity|].
  inversion HF as [|? ? Hb Ht]; subst. unfold is_byte in Hb.
  simpl. rewrite !hex_digit_upper_is_hex.
  - simpl. now rewrite IH.
  - apply Z.mod_pos_bound. lia.
  - split; [apply Z.div_pos; lia | apply Z.div_lt_upper_bound; lia].
Qed.

(** C9. For every tracker URL, every info-hash [h] (a byte string) given by
    any hex digest of it (parse-torrent's is lower case) and every total
    length, the query URL is the tracker URL, then [?info_hash=], then the
    uppercase hex digest of [h] with '%' before every two hex characters,
    then [&peer_id=-BT0001-000000000000&port=6881&downloaded=0&uploaded=0&left=],
    the total length, and [&event=started]. *)
Theorem getQueryUrl_template :
  forall trackerUrl infoHash (h : Buffer) length,
  Forall (fun b => is_byte b = true) h ->
  str_toUpper infoHash = hex_digest_upper h ->
  getQueryUrl trackerUrl infoHash length
  = trackerUrl ++ "?info_hash=" ++ percent_hex_digest h
    ++ "&peer_id=-BT0001-000000000000&port=6881&downloaded=0&uploaded=0&left="
    ++ js_number_to_string length ++ "&event=started".
Proof.
  intros trackerUrl infoHash h length HF Hu. unfold getQueryUrl.
  rewrite Hu, (replace_hex_pairs_digest h HF).
  rewrite !str_append_assoc. reflexivity.
Qed.

Lemma getQueryUrl_template_witness :
  getQueryUrl "http://t.example/announce" "00ff1a" 65536
  = "http://t.example/announce" ++ "?info_hash=" ++ percent_hex_digest [0; 255; 26]
    ++ "&peer_id=-BT0001-000000000000&port=6881&downloaded=0&uploaded=0&left="
    ++ js_number_to_string 65536 ++ "&event=started".
Proof.
  apply getQueryUrl_template.
  - repeat constructor.
  - reflexivity.
Defined.

Example getQueryUrl_example :
  getQueryUrl "http://t/a" "00ff1a" 65536
  = "http://t/a?info_hash=%00%FF%1A&peer_id=-BT0001-000000000000&port=6881&downloaded=0&uploaded=0&left=65536&event=started".
Proof. reflexivity. Qed.

Local Close Scope string_scope.

(* ------------------------------------------------------------------------- *)
(** * Completed piece cache eviction (src/downTorrent.ts, 5-second tick) *)

(** [config.numMaxCompletedPieceCacheSize] *)
Definition numMaxCompletedPieceCacheSize : Z := 16777216.

(** [state.pieces.filter(piece => piece.completed && piece.cached)], as
    indices into [state.pieces]. *)
Definition completed_cached_indices (pieces : list Piece) : list nat :=
  filter (fun i => match nth_error pieces i with
                   | Some p => completed p && cached p
                   | None => false
                   end) (seq 0 (length pieces)).

(** [sum(completedCachedPieces.map(piece => piece.pieceLength))] *)
Definition completed_cache_size (pieces : list Piece) : Z :=
  fold_right Z.add 0
    (map (fun i => match nth_error pieces i with
                   | Some p => pieceLength p
                   | None => 0
                   end) (completed_cached_indices pieces)).

(** Apply [f] to the elements whose index satisfies [sel], in place. *)
Definition map_selected {A} (sel : nat -> bool) (f : A -> A) (l : list A) : list A :=
  map (fun '(i, x) => if sel i then f x else x) (combine (seq 0 (length l)) l).

(** One run of the tick. [shuffled] is the array returned by
    [shuffle(completedCachedPieces)], as indices into [state.pieces];
    [slice(0, completedCachedPieces.length / 2)] truncates the fractional
    end. [clearCache()] mutates the pieces of [state.pieces] themselves. *)
Definition clear_cache_tick (shuffled : list nat) (pieces : list Piece) : list Piece :=
  let cc := completed_cached_indices pieces in
  if numMaxCompletedPieceCacheSize <? completed_cache_size pieces then
    let victims := firstn (Nat.div (length cc) 2) shuffled in
    map_selected (fun i => existsb (Nat.eqb i) victims) clearCache pieces
  else pieces.



(* ------------------------------------------------------------------------- *)
(** ** Facts about the tick *)












(* ------------------------------------------------------------------------- *)
(** * Peer session request pipeline (src/peer.ts) *)

(** The calls made on the peer's socket, in order. *)
Inductive SocketOp :=
| SockWrite (data : Buffer)
| SockEnd.

(** The fields of a [Peer] that the message handlers read and write. *)
Record PeerState := mkPeerState {
  handshaked : bool;
  bitfield : option BitSet;               (* undefined until a BITFIELD *)
  downloadingPieceIndex : option Z;        (* null *)
  downloadingSubPieceOffset : option Z;    (* null *)
  downloadingSubPieces : Z
}.

Definition Peer_new : PeerState := mkPeerState false None None None 0.

(** What a callback of one peer sees: the piece vector shared by all peers
    ([state.pieces]), the peer itself, its socket calls, the
    [writePieceToFile()] attempts and the number of [Math.random()] calls
    made so far. A callback that throws leaves the handler
    ([socket.on("data")] ends and destroys the socket and rethrows). *)
Record Session := mkSession {
  ss_pieces : list Piece;
  ss_peer : PeerState;
  ss_socket : list SocketOp;
  ss_writes : list PieceWrite;
  ss_randoms : nat
}.

Definition set_peer (s : Session) (ps : PeerState) : Session :=
  mkSession (ss_pieces s) ps (ss_socket s) (ss_writes s) (ss_randoms s).

Definition socket_call (s : Session) (op : SocketOp) : Session :=
  mkSession (ss_pieces s) (ss_peer s) (ss_socket s ++ [op]) (ss_writes s) (ss_randoms s).

Definition set_inflight (ps : PeerState) (n : Z) : PeerState :=
  mkPeerState (handshaked ps) (bitfield ps) (downloadingPieceIndex ps)
    (downloadingSubPieceOffset ps) n.

Definition set_cursor (ps : PeerState) (idx off : Z) : PeerState :=
  mkPeerState (handshaked ps) (bitfield ps) (Some idx) (Some off) (downloadingSubPieces ps).

(** [state.pieces[i]], used for a property access: throws a TypeError when
    the element is undefined. *)
Definition piece_at (pieces : list Piece) (i : Z) : result Piece :=
  if 0 <=? i then
    match nth_error pieces (Z.to_nat i) with
    | Some p => Ok p
    | None => Throw "TypeError: Cannot read properties of undefined"
    end
  else Throw "TypeError: Cannot read properties of undefined".

(** [this._bitfield.getBit(i)] *)
Definition peer_getBit (ps : PeerState) (i : Z) : result bool :=
  match bitfield ps with
  | Some bs => getBit bs i
  | None => Throw "TypeError: Cannot read properties of undefined"
  end.

(** [state.pieces.map((piece, i) => !piece.completed ? i : null)
      .filter(i => i != null)] *)
Definition incompleted_indexes (pieces : list Piece) : list Z :=
  map Z.of_nat (filter (fun i => match nth_error pieces i with
                                 | Some p => negb (completed p)
                                 | None => false
                                 end) (seq 0 (length pieces))).

(** [.filter(pieceIndex => this._bitfield.getBit(pieceIndex))] *)
Fixpoint filter_bitfield (ps : PeerState) (idxs : list Z) : result (list Z) :=
  match idxs with
  | [] => Ok []
  | i :: rest =>
      let! b := peer_getBit ps i in
      let! rest' := filter_bitfield ps rest in
      Ok (if b then i :: rest' else rest')
  end.

Section PeerSession.

(** [torrent_infoHash] is [state.torrent.infoHash]; [math_random k] is the
    value of the [k]-th call of [Math.random()]. *)
Variable torrent_infoHash : string.
Variable math_random : nat -> Q.

(** [downloadNextSubPiece()] *)
Definition downloadNextSubPiece (s : Session) : result Session :=
  let ps := ss_peer s in
  let pieces := ss_pieces s in
  let! repick :=
    match downloadingPieceIndex ps with
    | None => Ok true
    | Some idx =>
        let! b := peer_getBit ps idx in
        if negb b then Ok true
        else let! p := piece_at pieces idx in Ok (completed p)
    end in
  let! picked :=
    if repick then
      let! cands := filter_bitfield ps (incompleted_indexes pieces) in
      match cands with
      | [] => Ok None
      | _ =>
          let k := Qfloor (math_random (ss_randoms s)
                           * inject_Z (Z.of_nat (length cands))) in
          let idx := if 0 <=? k then nth_error cands (Z.to_nat k) else None in
          match idx with
          | Some idx =>
              Ok (Some (mkSession pieces (set_cursor ps idx 0) (ss_socket s)
                          (ss_writes s) (S (ss_randoms s))))
          | None => Throw "TypeError: Cannot read properties of undefined"
          end
      end
    else Ok (Some s) in
  match picked with
  | None => (* no more pieces can be downloaded from this peer, close it *)
      Ok (socket_call s SockEnd)
  | Some s =>
      let ps := ss_peer s in
      let idx := match downloadingPieceIndex ps with Some i => i | None => 0 end in
      let hint := match downloadingSubPieceOffset ps with Some o => o | None => 0 end in
      let! p := piece_at pieces idx in
      let! so_sl := getFirstIncompletedSubPiece p hint in
      let '(subPieceOffset, subPieceLength) := so_sl in
      let! msg := encodeMessage (Request idx subPieceOffset subPieceLength) in
      let s := socket_call s (SockWrite msg) in
      let off := subPieceOffset + subPieceLength in
      let cursor :=
        if pieceLength p <=? off
        then set_cursor ps (Z.rem (idx + 1) (Z.of_nat (length pieces))) 0
        else set_cursor ps idx off in
      Ok (set_peer s cursor)
  end.

(** [downloadNextSubPieces()]: [downloadNextSubPiece()] leaves the counter
    alone, so the [while] loop runs [max 0 (4 - n)] times. *)
Fixpoint download_loop (fuel : nat) (s : Session) : result Session :=
  match fuel with
  | O => Ok s
  | S fuel =>
      let ps := ss_peer s in
      let! s := downloadNextSubPiece (set_peer s (set_inflight ps (downloadingSubPieces ps + 1))) in
      download_loop fuel s
  end.

Definition numConcurrentDownloadingSubPieces : Z := 4.

Definition downloadNextSubPieces (s : Session) : result Session :=
  download_loop (Z.to_nat (numConcurrentDownloadingSubPieces - downloadingSubPieces (ss_peer s))) s.

(** [processMessage(message)]. The elements of [state.pieces] are objects
    of the [Piece] class above (the BitSet version of src/piece.ts), whose
    method is [saveSubPiece]; it has no [savePiece] method, so the call
    [state.pieces[message.pieceIndex].savePiece(...)] of
    [processPieceMessage] throws a TypeError, after the element has been
    read (itself a TypeError when it is undefined), and before the counter
    is decremented or the pipeline topped up. *)
Definition processMessage (s : Session) (m : PeerMessage) : result Session :=
  let ps := ss_peer s in
  match m with
  | Handshake infoHash _ =>
      if String.eqb (str_toUpper infoHash) (str_toUpper torrent_infoHash) then
        let! msg := encodeMessage Interested in
        Ok (socket_call
              (set_peer s (mkPeerState true (bitfield ps) (downloadingPieceIndex ps)
                             (downloadingSubPieceOffset ps) (downloadingSubPieces ps)))
              (SockWrite msg))
      else Throw "info hash mismatched in handshake response"
  | Unchoke => downloadNextSubPieces s
  | Bitfield bf =>
      let n := Z.of_nat (length (ss_pieces s)) in
      let expectedBitfieldLength := Z.quot (n + 7) 8 in
      if negb (Z.of_nat (length bf) =? expectedBitfieldLength)
      then Throw "unexpected bitfield length"
      else
        let! bs := BitSet_new n (Some bf) in
        Ok (set_peer s (mkPeerState (handshaked ps) (Some bs) (downloadingPieceIndex ps)
                          (downloadingSubPieceOffset ps) (downloadingSubPieces ps)))
  | PieceMsg pieceIndex blockOffset pieceData =>
      let! p := piece_at (ss_pieces s) pieceIndex in
      Throw "TypeError: state.pieces[message.pieceIndex].savePiece is not a function"
  | _ => Ok s
  end.

End PeerSession.

(* ------------------------------------------------------------------------- *)
(** * Wire codec: framing (src/peerMessage.ts) *)

Definition be32 (v : Z) : Buffer :=
  [Z.shiftr v 24 mod 256; Z.shiftr v 16 mod 256; Z.shiftr v 8 mod 256; v mod 256].

Lemma writeUInt32BE_ok buf v off :
  0 <= v <= 4294967295 -> 0 <= off -> off + 4 <= Z.of_nat (length buf) ->
  writeUInt32BE buf v off = Ok (firstn (Z.to_nat off) buf ++ be32 v ++ skipn (Z.to_nat (off + 4)) buf).
Proof.
  intros Hv Ho Hl. unfold writeUInt32BE.
  replace ((v <? 0) || (4294967295 <? v)) with false by (symmetry; apply orb_false_iff; split; apply Z.ltb_ge; lia).
  replace ((0 <=? off) && (off + 4 <=? Z.of_nat (length buf))) with true by (symmetry; apply andb_true_iff; split; apply Z.leb_le; lia).
  reflexivity.
Qed.

Lemma be32_value v : 0 <= v <= 4294967295 ->
  exists a b c d, be32 v = [a; b; c; d] /\ a * 16777216 + b * 65536 + c * 256 + d = v.
Proof.
  intros Hv. do 4 eexists. split; [reflexivity|].
  rewrite !Z.shiftr_div_pow2 by lia.
  change (2 ^ 24) with 16777216. change (2 ^ 16) with 65536. change (2 ^ 8) with 256.
  assert (H0 : v = 256 * (v / 256) + v mod 256) by (apply Z.div_mod; lia).
  assert (H1 : v / 256 = 256 * (v / 65536) + (v / 256) mod 256).
  { replace (v / 65536) with (v / 256 / 256) by (rewrite Z.div_div; reflexivity || lia).
    apply Z.div_mod; lia. }
  assert (H2 : v / 65536 = 256 * (v / 16777216) + (v / 65536) mod 256).
  { replace (v / 16777216) with (v / 65536 / 256) by (rewrite Z.div_div; reflexivity || lia).
    apply Z.div_mod; lia. }
  assert (v / 16777216 < 256) by (apply Z.div_lt_upper_bound; lia).
  assert (0 <= v / 16777216) by (apply Z.div_pos; lia).
  rewrite (Z.mod_small (v / 16777216) 256) by lia. lia.
Qed.


Lemma be32_sum v : 0 <= v <= 4294967295 ->
  nth 0 (be32 v) 0 * 16777216 + nth 1 (be32 v) 0 * 65536 + nth 2 (be32 v) 0 * 256 + nth 3 (be32 v) 0 = v.
Proof. intros Hv. destruct (be32_value v Hv) as (a & b & c & d & E & V). rewrite E. exact V. Qed.

Lemma readUInt32BE_be32 l1 v l2 : 0 <= v <= 4294967295 ->
  readUInt32BE (l1 ++ be32 v ++ l2) (Z.of_nat (length l1)) = Ok v.
Proof.
  intros Hv. unfold readUInt32BE. rewrite !length_app.
  replace ((0 <=? Z.of_nat (length l1)) && (Z.of_nat (length l1) + 4 <=? Z.of_nat (length l1 + (length (be32 v) + length l2)))) with true
    by (symmetry; apply andb_true_iff; split; apply Z.leb_le; simpl length; lia).
  f_equal. rewrite <- (be32_sum v Hv) at 5.
  assert (N : forall i, (i < 4)%nat -> nth (Z.to_nat (Z.of_nat (length l1) + Z.of_nat i)) (l1 ++ be32 v ++ l2) 0 = nth i (be32 v) 0).
  { intros i Hi. rewrite app_nth2 by lia. rewrite app_nth1 by (simpl; lia). f_equal. lia. }
  rewrite <- (N 0%nat), <- (N 1%nat), <- (N 2%nat), <- (N 3%nat) by lia. reflexivity.
Qed.

Lemma readUInt8_at l1 x l2 : readUInt8 (l1 ++ x :: l2) (Z.of_nat (length l1)) = Ok x.
Proof.
  unfold readUInt8. rewrite length_app.
  replace ((0 <=? Z.of_nat (length l1)) && (Z.of_nat (length l1) <? Z.of_nat (length l1 + length (x :: l2)))) with true
    by (symmetry; apply andb_true_iff; split; [apply Z.leb_le | apply Z.ltb_lt]; simpl length; lia).
  rewrite Nat2Z.id, app_nth2, Nat.sub_diag by lia. reflexivity.
Qed.

Lemma encode_have n : 0 <= n <= 4294967295 ->
  encodeMessage (Have n) = Ok ([0; 0; 0; 5; 4] ++ be32 n).
Proof.
  intros Hn. unfold encodeMessage. rewrite writeUInt32BE_ok by (simpl; lia). simpl. reflexivity.
Qed.

Lemma encode_request a b c : 0 <= a <= 4294967295 -> 0 <= b <= 4294967295 -> 0 <= c <= 4294967295 ->
  encodeMessage (Request a b c) = Ok ([0; 0; 0; 13; 6] ++ be32 a ++ be32 b ++ be32 c).
Proof.
  intros Ha Hb Hc. unfold encodeMessage. rewrite writeUInt32BE_ok by (simpl; lia). cbn [bind].
  rewrite writeUInt32BE_ok by (simpl; lia). cbn [bind].
  rewrite writeUInt32BE_ok by (simpl; lia). simpl. reflexivity.
Qed.

Lemma readUInt32BE_eq buf l1 v l2 off :
  buf = l1 ++ be32 v ++ l2 -> off = Z.of_nat (length l1) -> 0 <= v <= 4294967295 ->
  readUInt32BE buf off = Ok v.
Proof. intros -> -> Hv. apply readUInt32BE_be32, Hv. Qed.

Lemma readUInt8_eq buf l1 x l2 off :
  buf = l1 ++ x :: l2 -> off = Z.of_nat (length l1) -> readUInt8 buf off = Ok x.
Proof. intros -> ->. apply readUInt8_at. Qed.

Lemma readUInt32BE_app b rest off v :
  readUInt32BE b off = Ok v -> readUInt32BE (b ++ rest) off = Ok v.
Proof.
  unfold readUInt32BE. intros H.
  destruct ((0 <=? off) && (off + 4 <=? Z.of_nat (length b))) eqn:E; [|discriminate].
  apply andb_true_iff in E as [E1 E2]. apply Z.leb_le in E1, E2.
  rewrite length_app.
  replace ((0 <=? off) && (off + 4 <=? Z.of_nat (length b + length rest))) with true
    by (symmetry; apply andb_true_iff; split; apply Z.leb_le; lia).
  rewrite <- H. rewrite !app_nth1 by lia. reflexivity.
Qed.

Lemma readUInt8_app b rest off v :
  readUInt8 b off = Ok v -> readUInt8 (b ++ rest) off = Ok v.
Proof.
  unfold readUInt8. intros H.
  destruct ((0 <=? off) && (off <? Z.of_nat (length b))) eqn:E; [|discriminate].
  apply andb_true_iff in E as [E1 E2]. apply Z.leb_le in E1. apply Z.ltb_lt in E2.
  rewrite length_app.
  replace ((0 <=? off) && (off <? Z.of_nat (length b + length rest))) with true
    by (symmetry; apply andb_true_iff; split; [apply Z.leb_le | apply Z.ltb_lt]; lia).
  rewrite <- H. rewrite app_nth1 by lia. reflexivity.
Qed.

Lemma buf_slice_app b rest s e :
  0 <= s -> e <= Z.of_nat (length b) -> buf_slice (b ++ rest) s e = buf_slice b s e.
Proof.
  intros Hs He. unfold buf_slice.
  destruct (Z.le_gt_cases s e).
  - rewrite skipn_app. replace (Z.to_nat s - length b)%nat with O by lia. simpl.
    rewrite firstn_app. rewrite length_skipn.
    replace (Z.to_nat e - Z.to_nat s - (length b - Z.to_nat s))%nat with O by lia.
    simpl. rewrite app_nil_r. reflexivity.
  - replace (Z.to_nat e - Z.to_nat s)%nat with O by lia. reflexivity.
Qed.


Lemma decode_have n : 0 <= n <= 4294967295 ->
  decodeMessage ([0; 0; 0; 5; 4] ++ be32 n) = Ok (Some (9, Have n)).
Proof.
  intros Hn. unfold decodeMessage.
  rewrite (readUInt32BE_eq _ [] 5 (4 :: be32 n) 0) by (reflexivity || lia). cbn [bind].
  rewrite (readUInt8_eq _ [0; 0; 0; 5] 4 (be32 n) 4) by reflexivity.
  rewrite (readUInt32BE_eq _ [0; 0; 0; 5; 4] n [] 5) by (rewrite ?app_nil_r; reflexivity || lia).
  reflexivity.
Qed.

Lemma decode_request_cancel t a b c : (t = 6 \/ t = 8) ->
  0 <= a <= 4294967295 -> 0 <= b <= 4294967295 -> 0 <= c <= 4294967295 ->
  decodeMessage ([0; 0; 0; 13; t] ++ be32 a ++ be32 b ++ be32 c)
  = Ok (Some (17, if t =? 6 then Request a b c else Cancel a b c)).
Proof.
  intros Ht Ha Hb Hc. unfold decodeMessage.
  rewrite (readUInt32BE_eq _ [] 13 (t :: be32 a ++ be32 b ++ be32 c) 0) by (reflexivity || lia). cbn [bind].
  rewrite (readUInt8_eq _ [0; 0; 0; 13] t (be32 a ++ be32 b ++ be32 c) 4) by reflexivity.
  rewrite (readUInt32BE_eq _ [0; 0; 0; 13; t] a (be32 b ++ be32 c) 5) by (reflexivity || lia).
  rewrite (readUInt32BE_eq _ ([0; 0; 0; 13; t] ++ be32 a) b (be32 c) 9)
    by (rewrite <- ?app_assoc; reflexivity || lia).
  rewrite (readUInt32BE_eq _ ([0; 0; 0; 13; t] ++ be32 a ++ be32 b) c [] 13)
    by (rewrite <- ?app_assoc, ?app_nil_r; reflexivity || lia).
  destruct Ht as [-> | ->]; reflexivity.
Qed.

Lemma readUInt32BE_nonneg b off v :
  Forall (fun x => is_byte x = true) b -> readUInt32BE b off = Ok v -> 0 <= v.
Proof.
  intros HF. unfold readUInt32BE.
  destruct (_ && _) eqn:E; [|discriminate]. intros H; injection H as <-.
  apply andb_true_iff in E as [E1 E2]. apply Z.leb_le in E1, E2.
  assert (B : forall i, 0 <= i < 4 -> 0 <= nth (Z.to_nat (off + i)) b 0 < 256)
    by (intros i Hi; apply nth_In_byte; [assumption | lia]).
  pose proof (B 0 ltac:(lia)). pose proof (B 1 ltac:(lia)).
  pose proof (B 2 ltac:(lia)). pose proof (B 3 ltac:(lia)). lia.
Qed.

Lemma decodeMessage_app_stable (b rest : Buffer) n m :
  Forall (fun x => is_byte x = true) b ->
  decodeMessage b = Ok (Some (n, m)) ->
  (forall bf, m <> Bitfield bf) ->
  decodeMessage (b ++ rest) = Ok (Some (n, m)).
Proof.
  intros HF H Hm. unfold decodeMessage in *.
  rewrite length_app, Nat2Z.inj_add.
  set (lb := Z.of_nat (length b)) in *. set (lr := Z.of_nat (length rest)).
  assert (0 <= lr) by lia.
  destruct (Z.ltb_spec lb 4); [discriminate H|].
  replace (lb + lr <? 4) with false by (symmetry; apply Z.ltb_ge; lia).
  destruct (readUInt32BE b 0) as [v|e] eqn:R; cbn [bind] in H |- *; [|discriminate H].
  pose proof (readUInt32BE_nonneg _ _ _ HF R).
  rewrite (readUInt32BE_app _ _ _ _ R). cbn [bind].
  destruct (Z.eqb_spec (v + 4) (323119476 + 4)).
  - destruct (Z.ltb_spec lb 68); [discriminate H|].
    replace (lb + lr <? 68) with false by (symmetry; apply Z.ltb_ge; lia).
    rewrite !buf_slice_app by lia. exact H.
  - destruct (Z.eqb_spec (v + 4) 4); [exact H|].
    destruct (Z.leb_spec 5 lb).
    + replace (5 <=? lb + lr) with true by (symmetry; apply Z.leb_le; lia).
      destruct (readUInt8 b 4) as [t|e] eqn:R8; cbn [bind] in H; [|discriminate H].
      rewrite (readUInt8_app _ _ _ _ R8). cbn [bind].
      destruct ((0 <=? t) && (t <=? 8)); cbn [bind] in H |- *; [|exact H].
      destruct (Z.ltb_spec lb (v + 4)); [discriminate H|].
      replace (lb + lr <? v + 4) with false by (symmetry; apply Z.ltb_ge; lia).
      cbn [bind] in H |- *.
      destruct t as [|p|p]; try exact H.
      repeat (destruct p as [p|p|]; try exact H);
      repeat match goal with
      | H : context [readUInt32BE b ?o] |- _ =>
          destruct (readUInt32BE b o) eqn:?; cbn [bind] in H |- *; [|discriminate H];
          erewrite readUInt32BE_app by eassumption; cbn [bind]
      end; try exact H.
      * rewrite buf_slice_app by lia. exact H.
      * injection H as <- <-. exfalso. eapply Hm. reflexivity.
    + destruct (Z.ltb_spec lb (v + 4)); [discriminate H|]. lia.
Qed.

(** Decoding a complete message other than BITFIELD gives the same result
    when more bytes follow it in the buffer. *)
Theorem decode_app_stable (b rest : Buffer) n m :
  Forall (fun x => is_byte x = true) b ->
  decodeMessage b = Ok (Some (n, m)) ->
  (forall bf, m <> Bitfield bf) ->
  decodeMessage (b ++ rest) = Ok (Some (n, m)).
Proof. apply decodeMessage_app_stable. Qed.

Lemma encode_cancel a b c : 0 <= a <= 4294967295 -> 0 <= b <= 4294967295 -> 0 <= c <= 4294967295 ->
  encodeMessage (Cancel a b c) = Ok ([0; 0; 0; 13; 8] ++ be32 a ++ be32 b ++ be32 c).
Proof.
  intros Ha Hb Hc. unfold encodeMessage. rewrite writeUInt32BE_ok by (simpl; lia). cbn [bind].
  rewrite writeUInt32BE_ok by (simpl; lia). cbn [bind].
  rewrite writeUInt32BE_ok by (simpl; lia). simpl. reflexivity.
Qed.

Definition u32_ok (v : Z) : bool := (0 <=? v) && (v <=? 4294967295).

Definition fixed_size_ok (m : PeerMessage) : bool :=
  match m with
  | KeepAlive | Choke | Unchoke | Interested | NotInterested => true
  | Have n => u32_ok n
  | Request a b c | Cancel a b c => u32_ok a && u32_ok b && u32_ok c
  | _ => false
  end.

Lemma u32_ok_spec v : u32_ok v = true -> 0 <= v <= 4294967295.
Proof. unfold u32_ok. rewrite andb_true_iff, !Z.leb_le. tauto. Qed.

Lemma decodeMessage_encode_fixed (m : PeerMessage) :
  fixed_size_ok m = true ->
  exists frame, encodeMessage m = Ok frame
    /\ decodeMessage frame = Ok (Some (Z.of_nat (length frame), m)).
Proof.
  destruct m; simpl; intros H; try discriminate H;
    try (eexists; split; reflexivity).
  - apply u32_ok_spec in H. eexists. split; [apply encode_have; exact H|].
    rewrite decode_have by exact H. reflexivity.
  - apply andb_true_iff in H as [H Hc]. apply andb_true_iff in H as [Ha Hb].
    apply u32_ok_spec in Ha, Hb, Hc.
    eexists. split; [apply encode_request; assumption|].
    rewrite (decode_request_cancel 6) by (auto || lia). reflexivity.
  - apply andb_true_iff in H as [H Hc]. apply andb_true_iff in H as [Ha Hb].
    apply u32_ok_spec in Ha, Hb, Hc.
    eexists. split; [apply encode_cancel; assumption|].
    rewrite (decode_request_cancel 8) by (auto || lia). reflexivity.
Qed.

(** Round trip of the fixed-size messages: KEEP_ALIVE, CHOKE, UNCHOKE,
    INTERESTED, NOT_INTERESTED, and HAVE, REQUEST, CANCEL with 32-bit fields. *)
Theorem decode_encode_fixed (m : PeerMessage) :
  fixed_size_ok m = true ->
  exists frame, encodeMessage m = Ok frame
    /\ decodeMessage frame = Ok (Some (Z.of_nat (length frame), m)).
Proof. apply decodeMessage_encode_fixed. Qed.

Lemma decode_encode_fixed_witness :
  fixed_size_ok (Request 3 16384 16384) = true /\
  exists frame, encodeMessage (Request 3 16384 16384) = Ok frame
    /\ decodeMessage frame = Ok (Some (Z.of_nat (length frame), Request 3 16384 16384)).
Proof. split; [reflexivity | apply decode_encode_fixed; reflexivity]. Defined.

Lemma decode_app_stable_witness :
  Forall (fun x => is_byte x = true) [0; 0; 0; 1; 2] /\
  decodeMessage [0; 0; 0; 1; 2] = Ok (Some (5, Interested)) /\
  decodeMessage ([0; 0; 0; 1; 2] ++ [0; 0]) = Ok (Some (5, Interested)).
Proof.
  split; [repeat constructor|]. split; [reflexivity|].
  apply decode_app_stable; [repeat constructor | reflexivity | intros bf; discriminate].
Defined.

Lemma set_nth_app {A} (l1 : list A) x y l2 :
  set_nth (length l1) y (l1 ++ x :: l2) = l1 ++ y :: l2.
Proof. induction l1; simpl; [reflexivity | now rewrite IHl1]. Qed.

Lemma writeUInt8_at l1 x v l2 : 0 <= v <= 255 ->
  writeUInt8 (l1 ++ x :: l2) (Some v) (Z.of_nat (length l1)) = Ok (l1 ++ v :: l2).
Proof.
  intros Hv. unfold writeUInt8.
  replace ((v <? 0) || (255 <? v)) with false
    by (symmetry; apply orb_false_iff; split; apply Z.ltb_ge; lia).
  replace ((0 <=? Z.of_nat (length l1)) && (Z.of_nat (length l1) <? Z.of_nat (length (l1 ++ x :: l2))))
    with true by (symmetry; rewrite andb_true_iff, Z.leb_le, Z.ltb_lt, length_app; simpl; lia).
  rewrite Nat2Z.id, set_nth_app. reflexivity.
Qed.

Lemma encode_bitfield bf :
  1 + Z.of_nat (length bf) <= 4294967295 ->
  encodeMessage (Bitfield bf) = Ok (be32 (1 + Z.of_nat (length bf)) ++ 5 :: bf).
Proof.
  intros Hl. unfold encodeMessage. cbn [bind].
  assert (E : buf_copy bf (Buffer_alloc (5 + Z.of_nat (length bf))) 5 = [0; 0; 0; 0; 0] ++ bf).
  { unfold buf_copy, Buffer_alloc. rewrite repeat_length.
    replace (Z.to_nat (5 + Z.of_nat (length bf))) with (5 + length bf)%nat by lia.
    replace (5 + length bf - Z.to_nat 5)%nat with (length bf) by (simpl; lia).
    rewrite Nat.min_id, firstn_all. simpl.
    rewrite skipn_all2 by (rewrite repeat_length; lia). rewrite app_nil_r. reflexivity. }
  rewrite E.
  replace (Z.of_nat (length ([0; 0; 0; 0; 0] ++ bf)) - 4) with (1 + Z.of_nat (length bf))
    by (rewrite length_app; change (length [0; 0; 0; 0; 0]) with 5%nat; lia).
  rewrite writeUInt32BE_ok
    by (rewrite ?length_app; change (length [0; 0; 0; 0; 0]) with 5%nat; lia).
  cbn [bind].
  simpl firstn. simpl skipn. rewrite app_nil_l.
  apply (writeUInt8_at (be32 _) 0 5 bf). lia.
Qed.

Lemma decodeMessage_bitfield_rest (bf rest : Buffer) :
  1 + Z.of_nat (length bf) <= 4294967295 ->
  1 + Z.of_nat (length bf) <> 323119476 ->
  exists frame, encodeMessage (Bitfield bf) = Ok frame
    /\ decodeMessage (frame ++ rest)
       = Ok (Some (5 + Z.of_nat (length bf), Bitfield (bf ++ rest))).
Proof.
  intros Hl Hh. eexists. split; [apply encode_bitfield; exact Hl|].
  set (L := 1 + Z.of_nat (length bf)).
  assert (HL : 0 <= L <= 4294967295) by lia.
  assert (Hlen : Z.of_nat (length ((be32 L ++ 5 :: bf) ++ rest))
                 = 5 + Z.of_nat (length bf) + Z.of_nat (length rest))
    by (rewrite !length_app; unfold be32; cbn [length]; lia).
  unfold decodeMessage. rewrite Hlen.
  replace (5 + Z.of_nat (length bf) + Z.of_nat (length rest) <? 4) with false
    by (symmetry; apply Z.ltb_ge; lia).
  rewrite (readUInt32BE_eq _ [] L (5 :: bf ++ rest) 0)
    by (rewrite <- ?app_assoc; reflexivity || lia).
  cbn [bind].
  replace (L + 4 =? 323119476 + 4) with false by (symmetry; apply Z.eqb_neq; lia).
  replace (L + 4 =? 4) with false by (symmetry; apply Z.eqb_neq; lia).
  replace (5 <=? 5 + Z.of_nat (length bf) + Z.of_nat (length rest)) with true
    by (symmetry; apply Z.leb_le; lia).
  rewrite (readUInt8_eq _ (be32 L) 5 (bf ++ rest) 4) by (rewrite <- ?app_assoc; reflexivity).
  cbn [bind andb Z.leb Z.compare].
  replace (5 + Z.of_nat (length bf) + Z.of_nat (length rest) <? L + 4) with false
    by (symmetry; apply Z.ltb_ge; lia).
  replace (L + 4) with (5 + Z.of_nat (length bf)) by lia.
  f_equal. f_equal. f_equal. f_equal.
  unfold buf_slice. rewrite <- app_assoc.
  change (Z.to_nat 5) with 5%nat.
  change (skipn 5 (be32 L ++ (5 :: bf) ++ rest)) with (bf ++ rest).
  rewrite firstn_all2; [reflexivity|]. rewrite length_app. lia.
Qed.

(** [bitfield: buffer.slice(5)]: a BITFIELD frame followed by more bytes
    decodes with a bitfield that also holds the trailing bytes, while the
    reported message length is the frame's own. *)
Theorem decode_bitfield_takes_rest (bf rest : Buffer) :
  1 + Z.of_nat (length bf) <= 4294967295 ->
  1 + Z.of_nat (length bf) <> 323119476 ->
  exists frame, encodeMessage (Bitfield bf) = Ok frame
    /\ decodeMessage (frame ++ rest)
       = Ok (Some (5 + Z.of_nat (length bf), Bitfield (bf ++ rest))).
Proof. apply decodeMessage_bitfield_rest. Qed.

Lemma firstn_buf_copy k src target t :
  (k <= Z.to_nat t)%nat -> firstn k (buf_copy src target t) = firstn k target.
Proof.
  intros Hk. unfold buf_copy. rewrite firstn_app, firstn_firstn, length_firstn.
  destruct (Nat.le_gt_cases (Z.to_nat t) (length target)) as [Hle | Hgt].
  - replace (k - Nat.min (Z.to_nat t) (length target))%nat with 0%nat by lia.
    rewrite app_nil_r. f_equal. lia.
  - replace (Nat.min (length src) (length target - Z.to_nat t)) with 0%nat by lia.
    rewrite firstn_O, app_nil_l, Nat.add_0_r, (skipn_all2 target) by lia.
    rewrite firstn_nil, app_nil_r. f_equal. lia.
Qed.

Lemma encode_handshake_shape ih pid fr :
  encodeMessage (Handshake ih pid) = Ok fr ->
  length fr = 68%nat /\ firstn 4 fr = [19; 66; 105; 116].
Proof.
  unfold encodeMessage.
  change (writeUInt8 (Buffer_alloc 68) (Some 19) 0) with (Ok (set_nth 0 19 (Buffer_alloc 68))).
  cbn [bind]. unfold buf_write at 2.
  set (B := buf_copy (bytes_of_string "BitTorrent protocol") (set_nth 0 19 (Buffer_alloc 68)) 1).
  destruct (getRawInfoHash ih) as [raw|e]; cbn [bind]; [|discriminate].
  intros H. injection H as <-. unfold buf_write.
  assert (LB : length B = 68%nat) by (vm_compute; reflexivity).
  split.
  - rewrite !buf_copy_length; [exact LB | rewrite LB; vm_compute; lia |].
    rewrite buf_copy_length; rewrite LB; vm_compute; lia.
  - rewrite !firstn_buf_copy by (vm_compute; lia). vm_compute. reflexivity.
Qed.

Lemma encode_tail buffer t fr : 0 <= t <= 255 ->
  (let! b := writeUInt32BE buffer (Z.of_nat (length buffer) - 4) 0 in writeUInt8 b (Some t) 4)
  = Ok fr ->
  (5 <= length fr)%nat /\ 0 <= Z.of_nat (length fr) - 4 <= 4294967295 /\
  exists rest, fr = be32 (Z.of_nat (length fr) - 4) ++ t :: rest.
Proof.
  intros Ht. unfold writeUInt32BE, writeUInt8.
  replace ((t <? 0) || (255 <? t)) with false
    by (symmetry; apply orb_false_iff; split; apply Z.ltb_ge; lia).
  remember (Z.of_nat (length buffer) - 4) as V eqn:HV.
  destruct ((V <? 0) || (4294967295 <? V)) eqn:E1; cbn [bind]; [discriminate|].
  destruct ((0 <=? 0) && (0 + 4 <=? Z.of_nat (length buffer))) eqn:E2; cbn [bind]; [|discriminate].
  apply orb_false_iff in E1 as [E1 E1']. apply Z.ltb_ge in E1, E1'.
  change (firstn (Z.to_nat 0) buffer) with (@nil Z). change (Z.to_nat (0 + 4)) with 4%nat.
  rewrite app_nil_l. fold (be32 V).
  destruct buffer as [|x0 [|x1 [|x2 [|x3 [|x4 r]]]]]; cbn [length] in HV; try lia.
  - unfold be32. cbn. discriminate.
  - cbn [skipn]. unfold be32.
    replace ((0 <=? 4) && (4 <? Z.of_nat (length
        ([Z.shiftr V 24 mod 256; Z.shiftr V 16 mod 256; Z.shiftr V 8 mod 256; V mod 256] ++ x4 :: r))))
      with true by (symmetry; rewrite andb_true_iff, Z.leb_le, Z.ltb_lt; cbn [length app]; lia).
    intros H. injection H as <-. cbn [length set_nth app Z.to_nat Pos.to_nat Pos.iter_op Nat.add].
    replace (Z.of_nat (S (S (S (S (S (length r)))))) - 4) with V by lia.
    split; [lia|]. split; [lia|]. exists r. reflexivity.
Qed.

Lemma encode_frame_regular m fr :
  encodeMessage m = Ok fr ->
  (forall ih pid, m <> Handshake ih pid) -> m <> KeepAlive ->
  (5 <= length fr)%nat /\ 0 <= Z.of_nat (length fr) - 4 <= 4294967295 /\
  0 <= messageType m <= 8 /\
  exists rest, fr = be32 (Z.of_nat (length fr) - 4) ++ messageType m :: rest.
Proof.
  intros H Hh Hk. destruct m; [exfalso; eapply Hh; reflexivity | exfalso; now apply Hk | ..];
  unfold encodeMessage in H; cbv beta iota zeta in H;
  (lazymatch type of H with bind ?x ?k = _ =>
     destruct x as [buffer|e] eqn:Eb; cbn [bind] in H; [|discriminate H] end);
  apply (encode_tail buffer) in H; (simpl; lia) || (intuition (simpl; lia)).
Qed.

Lemma firstn_split4 {A} k (l : list A) : (4 <= k)%nat ->
  firstn k l = firstn 4 l ++ skipn 4 (firstn k l).
Proof.
  intros Hk. rewrite <- (firstn_skipn 4 (firstn k l)) at 1.
  rewrite firstn_firstn. f_equal. f_equal. lia.
Qed.

Lemma handshake_dec m :
  {ih & {pid | m = Handshake ih pid}} + {forall ih pid, m <> Handshake ih pid}.
Proof. destruct m; [left; eauto | right; intros ih pid; discriminate ..]. Defined.

Lemma keepalive_dec m : {m = KeepAlive} + {m <> KeepAlive}.
Proof. destruct m; [right; discriminate | left; reflexivity | right; discriminate ..]. Defined.

(** A strict prefix of an encoded frame decodes to [null] (more bytes
    needed), unless its length field reads as the handshake prefix. *)
Theorem decode_prefix_none m fr k :
  encodeMessage m = Ok fr ->
  Z.of_nat (length fr) <> 323119480 ->
  (k < length fr)%nat ->
  decodeMessage (firstn k fr) = Ok None.
Proof.
  intros He Hn Hk.
  assert (Lp : length (firstn k fr) = k) by (rewrite length_firstn; lia).
  unfold decodeMessage. rewrite Lp.
  destruct (Nat.lt_ge_cases k 4) as [Hk4 | Hk4].
  { replace (Z.of_nat k <? 4) with true by (symmetry; apply Z.ltb_lt; lia). reflexivity. }
  replace (Z.of_nat k <? 4) with false by (symmetry; apply Z.ltb_ge; lia).
  rewrite (firstn_split4 k fr Hk4).
  destruct (handshake_dec m) as [[ih [pid ->]] | Hh].
  - apply encode_handshake_shape in He as [L68 F4]. rewrite F4.
    change [19; 66; 105; 116] with (be32 323119476).
    rewrite (readUInt32BE_eq _ [] 323119476 _ 0) by (reflexivity || lia). cbn [bind].
    replace (323119476 + 4 =? 323119476 + 4) with true by reflexivity.
    replace (Z.of_nat k <? 68) with true by (symmetry; apply Z.ltb_lt; lia).
    reflexivity.
  - destruct (keepalive_dec m) as [-> | Hk'].
    { injection He as <-. simpl in Hk. lia. }
    destruct (encode_frame_regular m fr He Hh Hk') as (L5 & Hv & Ht & rest & Hfr).
    remember (Z.of_nat (length fr) - 4) as V eqn:HV. subst fr.
    replace (firstn 4 (be32 V ++ messageType m :: rest)) with (be32 V)
      by (unfold be32; reflexivity).
    rewrite (readUInt32BE_eq _ [] V _ 0) by (reflexivity || lia). cbn [bind].
    replace (V + 4 =? 323119476 + 4) with false by (symmetry; apply Z.eqb_neq; lia).
    replace (V + 4 =? 4) with false by (symmetry; apply Z.eqb_neq; lia).
    replace (skipn 4 (firstn k (be32 V ++ messageType m :: rest)))
      with (firstn (k - 4) (messageType m :: rest))
      by (rewrite firstn_app, (firstn_all2 (be32 V) (n := k)) by (unfold be32; simpl; lia); reflexivity).
    destruct (Nat.eq_dec k 4) as [-> | Hk5].
    + cbn [Nat.sub firstn]. rewrite ?app_nil_r.
      change (Z.of_nat 4) with 4. cbn [Z.leb Z.compare bind].
      replace (4 <? V + 4) with true by (symmetry; apply Z.ltb_lt; rewrite length_app in *; unfold be32 in *; cbn [length] in *; lia). reflexivity.
    + replace (k - 4)%nat with (S (k - 5)) by lia. cbn [firstn].
      replace (5 <=? Z.of_nat k) with true by (symmetry; apply Z.leb_le; lia).
      rewrite (readUInt8_eq _ (be32 V) (messageType m) _ 4) by reflexivity. cbn [bind].
      replace ((0 <=? messageType m) && (messageType m <=? 8)) with true
        by (symmetry; rewrite andb_true_iff, !Z.leb_le; lia). cbn [bind].
      replace (Z.of_nat k <? V + 4) with true by (symmetry; apply Z.ltb_lt; lia). reflexivity.
Qed.

(** A type byte above 8 throws as soon as five bytes are buffered, before
    the rest of the frame has arrived. *)
Theorem decode_invalid_type_throws (v t : Z) (rest : Buffer) :
  0 < v <= 4294967295 -> v <> 323119476 -> 8 < t ->
  decodeMessage (be32 v ++ t :: rest) = Throw "decoded invalid peer message type".
Proof.
  intros Hv Hh Ht. unfold decodeMessage.
  assert (L : Z.of_nat (length (be32 v ++ t :: rest)) = 5 + Z.of_nat (length rest))
    by (rewrite length_app; unfold be32; cbn [length]; lia).
  rewrite L.
  replace (5 + Z.of_nat (length rest) <? 4) with false by (symmetry; apply Z.ltb_ge; lia).
  rewrite (readUInt32BE_eq _ [] v (t :: rest) 0) by (reflexivity || lia). cbn [bind].
  replace (v + 4 =? 323119476 + 4) with false by (symmetry; apply Z.eqb_neq; lia).
  replace (v + 4 =? 4) with false by (symmetry; apply Z.eqb_neq; lia).
  replace (5 <=? 5 + Z.of_nat (length rest)) with true by (symmetry; apply Z.leb_le; lia).
  rewrite (readUInt8_eq _ (be32 v) t rest 4) by reflexivity. cbn [bind].
  replace ((0 <=? t) && (t <=? 8)) with false
    by (symmetry; apply andb_false_iff; right; apply Z.leb_gt; lia).
  reflexivity.
Qed.

Lemma decode_invalid_type_throws_witness :
  (0 < 1 <= 4294967295 /\ 1 <> 323119476 /\ 8 < 9) /\
  decodeMessage (be32 1 ++ [9]) = Throw "decoded invalid peer message type".
Proof. split; [lia | apply decode_invalid_type_throws; lia]. Defined.

Lemma decode_prefix_none_witness :
  encodeMessage (Request 3 16384 16384)
    = Ok [0; 0; 0; 13; 6; 0; 0; 0; 3; 0; 0; 64; 0; 0; 0; 64; 0] /\
  17 <> 323119480 /\ (10 < 17)%nat /\
  decodeMessage (firstn 10 [0; 0; 0; 13; 6; 0; 0; 0; 3; 0; 0; 64; 0; 0; 0; 64; 0]) = Ok None.
Proof.
  split; [reflexivity|]. split; [lia|]. split; [lia|].
  apply (decode_prefix_none (Request 3 16384 16384)); [reflexivity | simpl; lia | simpl; lia].
Defined.

Lemma decode_bitfield_takes_rest_witness :
  (1 + 1 <= 4294967295 /\ 1 + 1 <> 323119476) /\
  exists frame, encodeMessage (Bitfield [128]) = Ok frame
    /\ decodeMessage (frame ++ [0; 0; 0; 1; 2])
       = Ok (Some (6, Bitfield [128; 0; 0; 0; 1; 2])).
Proof. split; [lia | apply (decode_bitfield_takes_rest [128] [0; 0; 0; 1; 2]); simpl; lia]. Defined.

Local Open Scope string_scope.
Local Open Scope list_scope.
Local Open Scope Z_scope.

(* ------------------------------------------------------------------------- *)
(** * BitSet and piece store properties (src/tracker.ts, src/piece.ts) *)

Lemma length_set_nth {A} k (x : A) l : length (set_nth k x l) = length l.
Proof. revert k; induction l; intros [|k]; simpl; auto. Qed.

Lemma nth_set_nth {A} k k' (x d : A) l : (k < length l)%nat ->
  nth k' (set_nth k x l) d = if Nat.eqb k k' then x else nth k' l d.
Proof.
  revert k k'; induction l as [|a l IH]; intros [|k] [|k'] Hk; simpl in *; try lia; auto.
  rewrite IH by lia. reflexivity.
Qed.

Lemma Forall_set_nth {A} (P : A -> Prop) k x l :
  Forall P l -> P x -> Forall P (set_nth k x l).
Proof.
  revert k; induction l as [|a l IH]; intros [|k] HF Hx; simpl; auto;
    inversion HF; subst; constructor; auto.
Qed.

(** [BitSet.putBit] then [getBit]: on a BitSet whose buffer holds bytes,
    for bit indexes below 8 times the buffer length, [putBit(i, v)]
    succeeds, keeps the length and the buffer size, and [getBit(i)] then
    returns [v] while every other bit keeps its value. *)
Theorem putBit_getBit bs i j v :
  Forall (fun b => is_byte b = true) (bs_buf bs) ->
  0 <= i < 8 * Z.of_nat (length (bs_buf bs)) ->
  0 <= j < 8 * Z.of_nat (length (bs_buf bs)) ->
  exists bs', putBit bs i v = Ok bs'
    /\ bs_length bs' = bs_length bs
    /\ length (bs_buf bs') = length (bs_buf bs)
    /\ Forall (fun b => is_byte b = true) (bs_buf bs')
    /\ getBit bs' i = Ok v
    /\ (j <> i -> getBit bs' j = getBit bs j).
Proof.
  intros HF Hi Hj.
  rewrite (putBit_spec bs i v HF) by lia.
  set (k := Z.to_nat (i / 8)). set (b := nth k (bs_buf bs) 0).
  assert (Hk : (k < length (bs_buf bs))%nat).
  { unfold k. assert (i / 8 < Z.of_nat (length (bs_buf bs))) by (apply Z.div_lt_upper_bound; lia).
    assert (0 <= i / 8) by (apply Z.div_pos; lia). lia. }
  assert (Hb : 0 <= b < 256) by (apply nth_In_byte; assumption).
  assert (Hm : 0 <= i mod 8 < 8) by (apply Z.mod_pos_bound; lia).
  destruct (bit_ops_at b (i mod 8) Hb Hm) as (_ & _ & _ & Bs & Bc).
  set (nb := if v then Z.setbit b (7 - i mod 8) else Z.clearbit b (7 - i mod 8)).
  assert (Hnb : is_byte nb = true) by (unfold nb; destruct v; assumption).
  set (bs' := mkBitSet (bs_length bs) (set_nth k nb (bs_buf bs))).
  assert (HF' : Forall (fun b => is_byte b = true) (bs_buf bs'))
    by (apply Forall_set_nth; assumption).
  assert (HL' : length (bs_buf bs') = length (bs_buf bs)) by apply length_set_nth.
  exists bs'. split; [reflexivity|]. split; [reflexivity|]. split; [exact HL'|].
  split; [exact HF'|].
  split.
  - rewrite getBit_spec by (rewrite ?HL'; lia || assumption).
    cbn [bs_buf bs']. fold k. rewrite nth_set_nth, Nat.eqb_refl by exact Hk.
    f_equal. unfold nb. destruct v.
    + apply Z.setbit_eq. lia.
    + apply Bool.not_true_iff_false. rewrite Z.clearbit_eq. discriminate.
  - intros Hji.
    rewrite !getBit_spec by (rewrite ?HL'; lia || assumption).
    cbn [bs_buf bs']. rewrite nth_set_nth by exact Hk.
    destruct (Nat.eqb_spec k (Z.to_nat (j / 8))) as [E|E]; [|reflexivity].
    f_equal. fold b. rewrite <- E. fold b.
    assert (Hmj : 0 <= j mod 8 < 8) by (apply Z.mod_pos_bound; lia).
    assert (Hd : i / 8 = j / 8).
    { assert (0 <= i / 8) by (apply Z.div_pos; lia).
      assert (0 <= j / 8) by (apply Z.div_pos; lia). unfold k in E. lia. }
    assert (Hne : 7 - i mod 8 <> 7 - j mod 8).
    { intros Hc. apply Hji.
      rewrite (Z.div_mod j 8), (Z.div_mod i 8) by lia. lia. }
    unfold nb. destruct v.
    + apply Z.setbit_neq; lia.
    + apply Z.clearbit_neq; lia.
Qed.

(** For [0 <= i], [getBit(i)] and [putBit(i, v)] succeed exactly when [i]
    is below 8 times the buffer length (the BitSet's [length] is not
    checked); at or past the buffer end both throw [ERR_OUT_OF_RANGE] from
    [readUInt8]. *)
Theorem getBit_putBit_range bs i v :
  Forall (fun b => is_byte b = true) (bs_buf bs) -> 0 <= i ->
  (i < 8 * Z.of_nat (length (bs_buf bs)) ->
     (exists b, getBit bs i = Ok b) /\ (exists bs', putBit bs i v = Ok bs'))
  /\ (8 * Z.of_nat (length (bs_buf bs)) <= i ->
     getBit bs i = Throw "ERR_OUT_OF_RANGE" /\ putBit bs i v = Throw "ERR_OUT_OF_RANGE").
Proof.
  intros HF Hi. split; intros Hl.
  - rewrite getBit_spec, putBit_spec by assumption. eauto.
  - unfold getBit, putBit, readUInt8.
    rewrite Z.quot_div_nonneg, Z.rem_mod_nonneg by lia.
    assert (Z.of_nat (length (bs_buf bs)) <= i / 8) by (apply Z.div_le_lower_bound; lia).
    replace ((0 <=? i / 8) && (i / 8 <? Z.of_nat (length (bs_buf bs)))) with false
      by (symmetry; rewrite andb_false_iff, Z.ltb_ge; lia).
    split; reflexivity.
Qed.

Lemma skipn_repeat' {A} (x : A) m k : skipn k (repeat x m) = repeat x (m - k).
Proof. revert m; induction k; intros [|m]; simpl; auto. Qed.

Lemma BitSet_new_copies_prefix' n src :
  0 <= n ->
  BitSet_new n (Some src)
  = Ok (mkBitSet n (firstn (Z.to_nat ((n + 7) / 8)) src
                    ++ repeat 0 (Z.to_nat ((n + 7) / 8) - length src))).
Proof.
  intros Hn. rewrite BitSet_new_ok by exact Hn. do 2 f_equal.
  set (k := Z.to_nat ((n + 7) / 8)). unfold buf_copy. rewrite repeat_length.
  change (Z.to_nat 0) with 0%nat. rewrite Nat.sub_0_r, firstn_O, app_nil_l, Nat.add_0_l.
  rewrite skipn_repeat'. f_equal.
  - destruct (Nat.le_ge_cases (length src) k).
    + rewrite Nat.min_l by lia. rewrite !firstn_all2 by lia. reflexivity.
    + rewrite Nat.min_r by lia. reflexivity.
  - f_equal. lia.
Qed.

(** [new BitSet(n, src)] keeps the first [floor((n + 7) / 8)] bytes of
    [src], padded with zero bytes when [src] is shorter. *)
Theorem BitSet_new_copies_prefix n src :
  0 <= n ->
  BitSet_new n (Some src)
  = Ok (mkBitSet n (firstn (Z.to_nat ((n + 7) / 8)) src
                    ++ repeat 0 (Z.to_nat ((n + 7) / 8) - length src))).
Proof. apply BitSet_new_copies_prefix'. Qed.

(** The [Piece] constructor: fields as given, [ceil(L / 16384)] sub-pieces,
    a mask of all ones or all zeros by the outcome of the disk check, no
    cache, and completed exactly when the disk check passed or [L = 0]. *)
Theorem Piece_new_spec (disk_piece_verified : Z -> bool) i L h :
  0 <= L ->
  exists p, Piece_new disk_piece_verified i L h = Ok p
    /\ pieceIndex p = i /\ pieceLength p = L /\ pieceHash p = h
    /\ subPieceTotalCount p = (L + 16383) / 16384
    /\ bs_buf (subPieceCompleted p)
       = repeat (if disk_piece_verified i then 255 else 0)
                (Z.to_nat (((L + 16383) / 16384 + 7) / 8))
    /\ cached p = false
    /\ subPieceCompletedProps p = []
    /\ completed p = disk_piece_verified i || (L =? 0).
Proof.
  intros HL. unfold Piece_new, subPieceLength.
  replace (L + 16384 - 1) with (L + 16383) by lia.
  rewrite Z.quot_div_nonneg by lia.
  rewrite BitSet_new_ok by (apply Z.div_pos; lia). cbn [bind].
  destruct (disk_piece_verified i); eexists; (split; [reflexivity|]); cbn;
    repeat split.
  - unfold buf_fill. rewrite repeat_length. reflexivity.
  - unfold completed. simpl. apply Z.eqb_refl.
  - unfold completed. cbn [subPieceCompletedCount subPieceCompleted bs_length].
    destruct (Z.eqb_spec L 0) as [->|Hn]; [reflexivity|].
    assert (1 <= (L + 16383) / 16384) by (apply Z.div_le_lower_bound; lia).
    destruct ((L + 16383) / 16384); [lia | reflexivity | lia].
Qed.

Lemma Piece_new_spec_witness :
  0 <= 32768 /\
  exists p, Piece_new (fun _ => false) 0 32768 "h"%string = Ok p
    /\ pieceIndex p = 0 /\ pieceLength p = 32768 /\ pieceHash p = "h"%string
    /\ subPieceTotalCount p = (32768 + 16383) / 16384
    /\ bs_buf (subPieceCompleted p)
       = repeat (if (fun _ : Z => false) 0 then 255 else 0)
                (Z.to_nat (((32768 + 16383) / 16384 + 7) / 8))
    /\ cached p = false
    /\ subPieceCompletedProps p = []
    /\ completed p = (fun _ : Z => false) 0 || (32768 =? 0).
Proof. split; [lia | apply Piece_new_spec; lia]. Defined.

Lemma first_incompleted_loop_spec bs L hint m : forall a,
  0 <= a ->
  (forall j, a <= j < a + Z.of_nat m -> exists b, getBit bs j = Ok b) ->
  match first_incompleted_loop bs L hint (map Z.of_nat (seq (Z.to_nat a) m)) with
  | Ok (off, n) =>
      exists i, a <= i < a + Z.of_nat m /\ getBit bs i = Ok false
        /\ hint <= i * subPieceLength /\ off = i * subPieceLength
        /\ n = Z.min subPieceLength (L - off)
        /\ (forall j, a <= j < i -> getBit bs j = Ok true \/ j * subPieceLength < hint)
  | Throw e =>
      e = "unreachable -- cannot get first incompleted sub piece"
      /\ (forall j, a <= j < a + Z.of_nat m -> hint <= j * subPieceLength -> getBit bs j = Ok true)
  end.
Proof.
  induction m as [|m IH]; intros a Ha Hok.
  - simpl. split; [reflexivity | intros; lia].
  - cbn [seq map first_incompleted_loop]. rewrite Z2Nat.id by lia.
    destruct (Hok a ltac:(lia)) as [bit Hb]. rewrite Hb. cbn [bind].
    destruct (negb bit && (hint <=? a * subPieceLength)) eqn:E.
    + apply andb_true_iff in E as [E1 E2]. apply Z.leb_le in E2.
      destruct bit; [discriminate|].
      exists a. repeat split; auto; try lia.
    + specialize (IH (a + 1) ltac:(lia)).
      replace (Z.to_nat (a + 1)) with (S (Z.to_nat a)) in IH by lia.
      assert (Hok' : forall j, a + 1 <= j < a + 1 + Z.of_nat m -> exists b, getBit bs j = Ok b)
        by (intros j Hj; apply Hok; lia).
      specialize (IH Hok').
      assert (Ha' : getBit bs a = Ok true \/ a * subPieceLength < hint).
      { destruct bit; [left; exact Hb|]. right.
        simpl in E. apply Z.leb_gt in E. exact E. }
      destruct (first_incompleted_loop bs L hint (map Z.of_nat (seq (S (Z.to_nat a)) m)))
        as [[off n]|e].
      * destruct IH as (i & Hi & Hbi & Hh & Ho & Hn & Hpre).
        exists i. repeat split; auto; try lia.
        intros j Hj. destruct (Z.eq_dec j a) as [->|Hne]; [exact Ha'|]. apply Hpre. lia.
      * destruct IH as [He Hall]. split; [exact He|].
        intros j Hj Hh. destruct (Z.eq_dec j a) as [->|Hne].
        -- destruct Ha' as [Ha'|Ha']; [exact Ha' | lia].
        -- apply Hall; lia.
Qed.

Lemma getFirstIncompletedSubPiece_spec' p hint :
  Forall (fun b => is_byte b = true) (bs_buf (subPieceCompleted p)) ->
  bs_length (subPieceCompleted p) <= 8 * Z.of_nat (length (bs_buf (subPieceCompleted p))) ->
  let bs := subPieceCompleted p in
  match getFirstIncompletedSubPiece p hint with
  | Ok (off, n) =>
      exists i, 0 <= i < bs_length bs /\ getBit bs i = Ok false
        /\ hint <= i * 16384 /\ off = i * 16384
        /\ n = Z.min 16384 (pieceLength p - off)
        /\ (forall j, 0 <= j < i -> getBit bs j = Ok true \/ j * 16384 < hint)
  | Throw e =>
      e = "unreachable -- cannot get first incompleted sub piece"
      /\ (forall i, 0 <= i < bs_length bs -> hint <= i * 16384 -> getBit bs i = Ok true)
  end.
Proof.
  intros HF Hlen bs. subst bs. unfold getFirstIncompletedSubPiece.
  destruct (Z.le_gt_cases 0 (bs_length (subPieceCompleted p))) as [H0|H0].
  - pose proof (first_incompleted_loop_spec (subPieceCompleted p) (pieceLength p) hint
                  (Z.to_nat (bs_length (subPieceCompleted p))) 0 ltac:(lia)) as H.
    rewrite Z2Nat.id in H by lia. change (Z.to_nat 0) with 0%nat in H.
    unfold subPieceLength in H. apply H.
    intros j Hj. rewrite getBit_spec by (assumption || lia). eauto.
  - replace (Z.to_nat (bs_length (subPieceCompleted p))) with 0%nat by lia.
    simpl. split; [reflexivity | intros; lia].
Qed.

(** [getFirstIncompletedSubPiece(hint)] returns the first clear bit [i]
    with [hint <= i * 16384], as the offset [i * 16384] and the length
    [min(16384, pieceLength - offset)]; it throws its "unreachable" error
    exactly when every such bit is set. *)
Theorem getFirstIncompletedSubPiece_spec p hint :
  Forall (fun b => is_byte b = true) (bs_buf (subPieceCompleted p)) ->
  bs_length (subPieceCompleted p) <= 8 * Z.of_nat (length (bs_buf (subPieceCompleted p))) ->
  let bs := subPieceCompleted p in
  match getFirstIncompletedSubPiece p hint with
  | Ok (off, n) =>
      exists i, 0 <= i < bs_length bs /\ getBit bs i = Ok false
        /\ hint <= i * 16384 /\ off = i * 16384
        /\ n = Z.min 16384 (pieceLength p - off)
        /\ (forall j, 0 <= j < i -> getBit bs j = Ok true \/ j * 16384 < hint)
  | Throw e =>
      e = "unreachable -- cannot get first incompleted sub piece"
      /\ (forall i, 0 <= i < bs_length bs -> hint <= i * 16384 -> getBit bs i = Ok true)
  end.
Proof. apply getFirstIncompletedSubPiece_spec'. Qed.

Lemma getFirstIncompletedSubPiece_spec_witness :
  (Forall (fun b => is_byte b = true) [64] /\ 2 <= 8 * 1) /\
  match getFirstIncompletedSubPiece (mkPiece 0 20000 "h" None (mkBitSet 2 [64]) [] 0) 0 with
  | Ok (off, n) =>
      exists i, 0 <= i < 2 /\ getBit (mkBitSet 2 [64]) i = Ok false
        /\ 0 <= i * 16384 /\ off = i * 16384
        /\ n = Z.min 16384 (20000 - off)
        /\ (forall j, 0 <= j < i -> getBit (mkBitSet 2 [64]) j = Ok true \/ j * 16384 < 0)
  | Throw e =>
      e = "unreachable -- cannot get first incompleted sub piece"
      /\ (forall i, 0 <= i < 2 -> 0 <= i * 16384 -> getBit (mkBitSet 2 [64]) i = Ok true)
  end.
Proof.
  split; [split; [repeat constructor | lia]|].
  exact (getFirstIncompletedSubPiece_spec (mkPiece 0 20000 "h" None (mkBitSet 2 [64]) [] 0) 0
           ltac:(repeat constructor) ltac:(simpl; lia)).
Defined.

(** On a piece whose mask has [ceil(pieceLength / 16384)] bits, every
    request [getFirstIncompletedSubPiece] returns is aligned, non-empty, at
    most 16384 bytes long and inside the piece. *)
Theorem getFirstIncompletedSubPiece_range p hint off n :
  Forall (fun b => is_byte b = true) (bs_buf (subPieceCompleted p)) ->
  bs_length (subPieceCompleted p) <= 8 * Z.of_nat (length (bs_buf (subPieceCompleted p))) ->
  bs_length (subPieceCompleted p) = (pieceLength p + 16383) / 16384 ->
  getFirstIncompletedSubPiece p hint = Ok (off, n) ->
  0 <= off /\ off mod 16384 = 0 /\ 0 < n <= 16384 /\ off + n <= pieceLength p.
Proof.
  intros HF Hlen HL H.
  pose proof (getFirstIncompletedSubPiece_spec' p hint HF Hlen) as S. cbv zeta in S.
  rewrite H in S. destruct S as (i & Hi & _ & _ & -> & -> & _).
  rewrite HL in Hi.
  assert (16384 * (i + 1) <= pieceLength p + 16383).
  { assert (i + 1 <= (pieceLength p + 16383) / 16384) by lia.
    apply Z.mul_le_mono_nonneg_l with (p := 16384) in H0; [|lia].
    pose proof (Z.mul_div_le (pieceLength p + 16383) 16384 ltac:(lia)). lia. }
  split; [lia|]. split; [rewrite Z.mod_mul; lia|]. split; lia.
Qed.

Lemma getFirstIncompletedSubPiece_range_witness :
  (Forall (fun b => is_byte b = true) [64] /\ 2 <= 8 * 1 /\ 2 = (20000 + 16383) / 16384
   /\ getFirstIncompletedSubPiece (mkPiece 0 20000 "h" None (mkBitSet 2 [64]) [] 0) 0
      = Ok (0, 16384)) /\
  0 <= 0 /\ 0 mod 16384 = 0 /\ 0 < 16384 <= 16384 /\ 0 + 16384 <= 20000.
Proof.
  assert (H : getFirstIncompletedSubPiece (mkPiece 0 20000 "h" None (mkBitSet 2 [64]) [] 0) 0
              = Ok (0, 16384)) by reflexivity.
  split; [split; [repeat constructor | split; [lia | split; [reflexivity | exact H]]]|].
  exact (getFirstIncompletedSubPiece_range (mkPiece 0 20000 "h" None (mkBitSet 2 [64]) [] 0)
           0 0 16384 ltac:(repeat constructor) ltac:(simpl; lia) ltac:(reflexivity) H).
Defined.

(** [saveSubPiece] throws the overflow error when the data passes the piece
    end; for in-bounds data it returns normally, keeps the index, length,
    hash and mask length, leaves the mask bytes unchanged or zeroes them,
    moves the count by +1, 0 or back to 0, and keeps a buffer of the
    piece's length. *)
Theorem saveSubPiece_invariants (sha1_matches write_piece_ok : Z -> Buffer -> bool)
    p (data : Buffer) off :
  (pieceLength p < off + Z.of_nat (length data) ->
     saveSubPiece sha1_matches write_piece_ok p data off = Throw "received piece length overflow")
  /\ (0 <= off -> off + Z.of_nat (length data) <= pieceLength p ->
     exists p1 ws, saveSubPiece sha1_matches write_piece_ok p data off = Ok (p1, ws)
       /\ pieceIndex p1 = pieceIndex p /\ pieceLength p1 = pieceLength p
       /\ pieceHash p1 = pieceHash p
       /\ bs_length (subPieceCompleted p1) = bs_length (subPieceCompleted p)
       /\ (bs_buf (subPieceCompleted p1) = bs_buf (subPieceCompleted p)
           \/ bs_buf (subPieceCompleted p1) = repeat 0 (length (bs_buf (subPieceCompleted p))))
       /\ (subPieceCompletedCount p1 = subPieceCompletedCount p
           \/ subPieceCompletedCount p1 = subPieceCompletedCount p + 1
           \/ subPieceCompletedCount p1 = 0)
       /\ ((forall c, pieceCache p = Some c -> Z.of_nat (length c) = pieceLength p) ->
           exists c1, pieceCache p1 = Some c1 /\ Z.of_nat (length c1) = pieceLength p)).
Proof.
  split.
  - intros H. unfold saveSubPiece.
    replace (pieceLength p <? off + Z.of_nat (length data)) with true
      by (symmetry; apply Z.ltb_lt; exact H).
    reflexivity.
  - intros H0 Hb.
    set (cache := match pieceCache p with Some c => c | None => Buffer_alloc (pieceLength p) end).
    assert (Hc : (forall c, pieceCache p = Some c -> Z.of_nat (length c) = pieceLength p) ->
                 Z.of_nat (length (buf_copy data cache off)) = pieceLength p).
    { intros Hwf. assert (Z.of_nat (length cache) = pieceLength p).
      { unfold cache. destruct (pieceCache p) eqn:E.
        - apply Hwf. reflexivity.
        - unfold Buffer_alloc. rewrite repeat_length. lia. }
      rewrite buf_copy_length by lia. exact H. }
    unfold saveSubPiece. rewrite (saveSubPiece_in_bounds p data off Hb). fold cache.
    destruct (existsb _ _); cbn [negb].
    + do 2 eexists. split; [reflexivity|]. cbn.
      repeat split; auto.
      intros Hwf. exists cache. split; [reflexivity|].
      unfold cache. destruct (pieceCache p) eqn:E.
      * apply Hwf. reflexivity.
      * unfold Buffer_alloc. rewrite repeat_length. lia.
    + destruct (_ =? _); [destruct (sha1_matches _ _ && write_piece_ok _ _)|];
        do 2 eexists; (split; [reflexivity|]); cbn;
        repeat split; auto;
        try (unfold buf_fill; right; reflexivity);
        intros Hwf; eexists; (split; [reflexivity|]); apply Hc; exact Hwf.
Qed.

(** [saveSubPiece] writes the piece to the files at most once per call, and
    only the assembled buffer of a piece whose last sub-piece just arrived
    and whose SHA-1 matched; the piece is then completed iff the write
    succeeded. *)
Theorem saveSubPiece_writes_verified (sha1_matches write_piece_ok : Z -> Buffer -> bool)
    p (data : Buffer) off p1 ws :
  saveSubPiece sha1_matches write_piece_ok p data off = Ok (p1, ws) ->
  ws = []
  \/ exists c, ws = [mkPieceWrite (pieceIndex p) c (write_piece_ok (pieceIndex p) c)]
       /\ sha1_matches (pieceIndex p) c = true
       /\ pieceCache p1 = Some c
       /\ subPieceCompletedCount p + 1 = bs_length (subPieceCompleted p)
       /\ completed p1 = write_piece_ok (pieceIndex p) c || (bs_length (subPieceCompleted p) =? 0).
Proof.
  intros H. unfold saveSubPiece in H.
  destruct (pieceLength p <? off + Z.of_nat (length data)); [discriminate|].
  set (cache := match pieceCache p with Some c => c | None => Buffer_alloc (pieceLength p) end)
    in H.
  destruct (existsb _ _); cbn [negb] in H.
  - injection H as _ <-. left. reflexivity.
  - destruct (Z.eqb_spec (subPieceCompletedCount p + 1) (bs_length (subPieceCompleted p)))
      as [Ecount|Ecount].
    + set (c := buf_copy data cache off) in H.
      destruct (sha1_matches (pieceIndex p) c) eqn:Em; cbn [andb] in H.
      * right. exists c.
        destruct (write_piece_ok (pieceIndex p) c) eqn:Ew; injection H as <- <-;
          (split; [reflexivity|]); (split; [exact Em|]); (split; [reflexivity|]);
          (split; [exact Ecount|]); unfold completed; cbn.
        -- rewrite Ecount, Z.eqb_refl. reflexivity.
        -- reflexivity.
      * injection H as _ <-. left. reflexivity.
    + injection H as _ <-. left. reflexivity.
Qed.

Lemma find_loop_range files offset fuel : forall l r mo,
  0 <= l -> r <= Z.of_nat (length files) ->
  match mo with
  | Some m => 0 <= m < Z.of_nat (length files)
  | None => l < r /\ (0 < fuel)%nat
  end ->
  exists m, find_loop files offset l r mo fuel = Ok (Some m) /\ 0 <= m < Z.of_nat (length files).
Proof.
  induction fuel as [|fuel IH]; intros l r mo Hl Hr Hmo.
  - destruct mo as [m|]; [|lia]. exists m. split; [reflexivity | exact Hmo].
  - cbn [find_loop]. destruct (Z.ltb_spec l r) as [Hlr|Hlr].
    + set (m := Z.quot (l + r) 2).
      assert (Hm : l <= m < r).
      { unfold m. rewrite Z.quot_div_nonneg by lia. split.
        - apply Z.div_le_lower_bound; lia.
        - apply Z.div_lt_upper_bound; lia. }
      destruct (nth_error files (Z.to_nat m)) as [file|] eqn:E.
      * destruct (offset <? file_offset file).
        -- apply IH; lia.
        -- destruct (file_offset file + file_length file <=? offset).
           ++ apply IH; lia.
           ++ exists m. split; [reflexivity | lia].
      * apply nth_error_None in E. lia.
    + destruct mo as [m|]; [|lia]. exists m. split; [reflexivity | exact Hmo].
Qed.

(** [findFileContainingOffset] returns [undefined] on an empty file list
    and otherwise an index in range of the list (not necessarily the file
    containing the offset). *)
Theorem findFileContainingOffset_in_range files offset :
  (files = [] -> findFileContainingOffset files offset = Ok None)
  /\ (files <> [] ->
      exists m, findFileContainingOffset files offset = Ok (Some m)
        /\ 0 <= m < Z.of_nat (length files)).
Proof.
  split.
  - intros ->. reflexivity.
  - intros Hne. unfold findFileContainingOffset. apply find_loop_range; [lia | lia |].
    destruct files; [congruence|]. simpl. lia.
Qed.

(* ------------------------------------------------------------------------- *)
(** * Piece file I/O ([doPieceIO], src/piece.ts) *)

(** [config.downloadPath] *)
Definition config_downloadPath : string := "./downloads".

(** [`${config.downloadPath}/${file.name}`] *)
Definition file_path (file : TorrentFile) : string :=
  config_downloadPath ++ "/" ++ file_name file.

(** A call [ioFunc(filename, offset, buffer)] of [doPieceIO]. *)
Record IOCall := mkIOCall { io_filename : string; io_offset : Z; io_buffer : Buffer }.

(** The [while (true)] loop of [doPieceIO] from [fileIndex] on: the calls
    made, and the exception that ends it, if any. [files[fileIndex]] past
    the end is [undefined], and [file.offset] throws. The index grows by one
    per round, so [length files + 1] rounds of fuel from a non-negative
    index never run out. *)
Fixpoint pieceio_loop (files : list TorrentFile) (l r : Z) (cache : Buffer)
    (fileIndex : Z) (fuel : nat) : list IOCall * option string :=
  match fuel with
  | O => ([], None)
  | S fuel =>
      match (if 0 <=? fileIndex then nth_error files (Z.to_nat fileIndex) else None) with
      | None => ([], Some "TypeError: Cannot read properties of undefined")
      | Some file =>
          let fl := file_offset file in
          let fr := file_offset file + file_length file - 1 in
          let filename := file_path file in
          let calls :=
            if (l >=? fl) && (l <=? fr) then
              [mkIOCall filename (l - fl) (buf_slice cache 0 (fr - l + 1))]
            else if (r >=? fl) && (r <=? fr) then
              [mkIOCall filename 0 (buf_slice cache (fl - l) (fr - l + 1))]
            else [] in
          if fr >=? r then (calls, None) (* all data written *)
          else
            let '(rest, err) := pieceio_loop files l r cache (fileIndex + 1) fuel in
            (calls ++ rest, err)
      end
  end.

(** [doPieceIO(ioFunc)] of the piece [pieceIndex] whose buffer is [cache];
    [torrent_pieceLength] is [state.torrent.pieceLength]. *)
Definition doPieceIO (files : list TorrentFile) (torrent_pieceLength pieceIndex : Z)
    (cache : Buffer) : list IOCall * option string :=
  let l := pieceIndex * torrent_pieceLength in
  let r := pieceIndex * torrent_pieceLength + Z.of_nat (length cache) - 1 in
  match findFileContainingOffset files l with
  | Throw e => ([], Some e)
  | Ok None => ([], Some "TypeError: Cannot read properties of undefined")
  | Ok (Some fileIndex) => pieceio_loop files l r cache fileIndex (S (length files))
  end.

Lemma pieceio_loop_end_files files l r cache fuel : forall fi c,
  In c (fst (pieceio_loop files l r cache fi fuel)) ->
  exists k file, nth_error files k = Some file /\ io_filename c = file_path file
    /\ ((file_offset file <= l <= file_offset file + file_length file - 1)
        \/ (file_offset file <= r <= file_offset file + file_length file - 1)).
Proof.
  induction fuel as [|fuel IH]; intros fi c Hin; [destruct Hin|].
  cbn [pieceio_loop] in Hin.
  destruct (0 <=? fi); [|destruct Hin].
  destruct (nth_error files (Z.to_nat fi)) as [file|] eqn:E; [|destruct Hin].
  set (calls := if (l >=? file_offset file) && (l <=? file_offset file + file_length file - 1)
                then _ else _) in Hin.
  assert (Hc : In c calls ->
    exists k file, nth_error files k = Some file /\ io_filename c = file_path file
      /\ ((file_offset file <= l <= file_offset file + file_length file - 1)
          \/ (file_offset file <= r <= file_offset file + file_length file - 1))).
  { intros Hc. exists (Z.to_nat fi), file. split; [exact E|]. unfold calls in Hc.
    destruct ((l >=? file_offset file) && (l <=? file_offset file + file_length file - 1)) eqn:B1.
    - destruct Hc as [<-|[]]. split; [reflexivity|]. left.
      apply andb_true_iff in B1 as [B1 B2]. rewrite Z.geb_le in B1. apply Z.leb_le in B2. lia.
    - destruct ((r >=? file_offset file) && (r <=? file_offset file + file_length file - 1)) eqn:B2;
        [|destruct Hc].
      destruct Hc as [<-|[]]. split; [reflexivity|]. right.
      apply andb_true_iff in B2 as [B2 B3]. rewrite Z.geb_le in B2. apply Z.leb_le in B3. lia. }
  destruct (_ >=? r).
  - exact (Hc Hin).
  - destruct (pieceio_loop files l r cache (fi + 1) fuel) as [rest err] eqn:Er.
    cbn [fst] in Hin. apply in_app_or in Hin as [Hin|Hin]; [exact (Hc Hin)|].
    apply (IH (fi + 1)). rewrite Er. exact Hin.
Qed.

(** Every I/O call of [doPieceIO] goes to a file that contains the first or
    the last byte of the piece: a file strictly inside the piece's range
    gets no call. *)
Theorem doPieceIO_end_files_only files torrent_pieceLength pieceIndex cache c :
  let l := pieceIndex * torrent_pieceLength in
  let r := pieceIndex * torrent_pieceLength + Z.of_nat (length cache) - 1 in
  In c (fst (doPieceIO files torrent_pieceLength pieceIndex cache)) ->
  exists k file, nth_error files k = Some file /\ io_filename c = file_path file
    /\ ((file_offset file <= l <= file_offset file + file_length file - 1)
        \/ (file_offset file <= r <= file_offset file + file_length file - 1)).
Proof.
  intros l r. unfold doPieceIO. fold l r.
  destruct (findFileContainingOffset files l) as [[fi|]|e]; cbn [fst]; try (intros []).
  apply pieceio_loop_end_files.
Qed.

(** When the search returns a file that holds the whole piece, [doPieceIO]
    makes one call, on that file, at the piece's offset in the file, with
    the whole buffer. *)
Theorem doPieceIO_single_file files torrent_pieceLength pieceIndex cache k file :
  let l := pieceIndex * torrent_pieceLength in
  let r := pieceIndex * torrent_pieceLength + Z.of_nat (length cache) - 1 in
  cache <> [] ->
  findFileContainingOffset files l = Ok (Some k) ->
  0 <= k -> nth_error files (Z.to_nat k) = Some file ->
  file_offset file <= l -> r <= file_offset file + file_length file - 1 ->
  doPieceIO files torrent_pieceLength pieceIndex cache
  = ([mkIOCall (file_path file) (l - file_offset file) cache], None).
Proof.
  intros l r Hne Hf Hk Hn Hl Hr. unfold doPieceIO. fold l r. rewrite Hf.
  cbn [pieceio_loop].
  assert (Hc : (0 < length cache)%nat) by (destruct cache; [congruence | simpl; lia]). replace (0 <=? k) with true by (symmetry; apply Z.leb_le; exact Hk).
  rewrite Hn.
  assert (Hlen : 0 <= Z.of_nat (length cache)) by lia.
  replace ((l >=? file_offset file) && (l <=? file_offset file + file_length file - 1)) with true
    by (symmetry; rewrite andb_true_iff, Z.geb_le, Z.leb_le; unfold r in Hr; lia).
  replace (file_offset file + file_length file - 1 >=? l + Z.of_nat (length cache) - 1)
    with true by (symmetry; rewrite Z.geb_le; unfold r in Hr; lia).
  do 4 f_equal. unfold buf_slice. change (Z.to_nat 0) with 0%nat.
  rewrite Nat.sub_0_r, skipn_O. apply firstn_all2. unfold r in Hr. lia.
Qed.


Lemma putBit_getBit_witness :
  Forall (fun b => is_byte b = true) [0; 0] /\ 0 <= 3 < 8 * 2 /\ 0 <= 9 < 8 * 2 /\
  exists bs', putBit (mkBitSet 16 [0; 0]) 3 true = Ok bs'
    /\ bs_length bs' = 16 /\ length (bs_buf bs') = 2%nat
    /\ Forall (fun b => is_byte b = true) (bs_buf bs')
    /\ getBit bs' 3 = Ok true
    /\ (9 <> 3 -> getBit bs' 9 = getBit (mkBitSet 16 [0; 0]) 9).
Proof.
  split; [repeat constructor|]. split; [lia|]. split; [lia|].
  exact (putBit_getBit (mkBitSet 16 [0; 0]) 3 9 true
           ltac:(repeat constructor) ltac:(simpl; lia) ltac:(simpl; lia)).
Defined.

Lemma getBit_putBit_range_witness :
  Forall (fun b => is_byte b = true) [0] /\ 0 <= 8 /\
  getBit (mkBitSet 8 [0]) 8 = Throw "ERR_OUT_OF_RANGE"
  /\ putBit (mkBitSet 8 [0]) 8 true = Throw "ERR_OUT_OF_RANGE".
Proof.
  split; [repeat constructor|]. split; [lia|].
  exact (proj2 (getBit_putBit_range (mkBitSet 8 [0]) 8 true
                  ltac:(repeat constructor) ltac:(lia)) ltac:(simpl; lia)).
Defined.

Lemma BitSet_new_copies_prefix_witness :
  0 <= 20 /\ BitSet_new 20 (Some [255; 1; 2; 3; 4]) = Ok (mkBitSet 20 [255; 1; 2]).
Proof.
  split; [lia|]. rewrite BitSet_new_copies_prefix by lia.
  reflexivity.
Defined.

Lemma saveSubPiece_invariants_witness :
  0 <= 4 /\ 4 + 2 <= 16 /\
  exists p1 ws, saveSubPiece (fun _ _ => true) (fun _ _ => true)
      (mkPiece 0 16 "h" None (mkBitSet 1 [0]) [] 0) [7; 7] 4 = Ok (p1, ws)
    /\ subPieceCompletedCount p1 = 1.
Proof.
  split; [lia|]. split; [lia|].
  destruct (proj2 (saveSubPiece_invariants (fun _ _ => true) (fun _ _ => true)
                     (mkPiece 0 16 "h" None (mkBitSet 1 [0]) [] 0) [7; 7] 4)
                  ltac:(lia) ltac:(simpl; lia)) as (p1 & ws & H & _).
  exists p1, ws. split; [exact H|].
  vm_compute in H. injection H as <- _. reflexivity.
Defined.

Lemma saveSubPiece_writes_verified_witness :
  exists p1 ws,
    saveSubPiece (fun _ _ => true) (fun _ _ => true)
      (mkPiece 0 2 "h" None (mkBitSet 1 [0]) [] 0) [7; 7] 0 = Ok (p1, ws)
    /\ (ws = []
        \/ exists c, ws = [mkPieceWrite 0 c true] /\ pieceCache p1 = Some c).
Proof.
  set (p := mkPiece 0 2 "h" None (mkBitSet 1 [0]) [] 0).
  destruct (saveSubPiece (fun _ _ => true) (fun _ _ => true) p [7; 7] 0) as [[p1 ws]|e] eqn:E;
    [|vm_compute in E; discriminate].
  exists p1, ws. split; [reflexivity|].
  destruct (saveSubPiece_writes_verified _ _ p [7; 7] 0 p1 ws E)
    as [Hw|(c & Hw & _ & Hc & _)]; [left; exact Hw|].
  right. exists c. split; [exact Hw|exact Hc].
Defined.

Lemma findFileContainingOffset_in_range_witness :
  scenario_files <> [] /\
  exists m, findFileContainingOffset scenario_files 0 = Ok (Some m)
    /\ 0 <= m < Z.of_nat (length scenario_files).
Proof.
  split; [discriminate|].
  exact (proj2 (findFileContainingOffset_in_range scenario_files 0) ltac:(discriminate)).
Defined.

Definition three_files : list TorrentFile :=
  [mkTorrentFile "a" 0 10; mkTorrentFile "b" 10 5; mkTorrentFile "c" 15 15].

Lemma doPieceIO_end_files_only_witness :
  In (mkIOCall (config_downloadPath ++ "/" ++ "c") 0 (repeat 0 15))
     (fst (doPieceIO three_files 30 0 (repeat 0 30))) /\
  exists k file, nth_error three_files k = Some file
    /\ io_filename (mkIOCall (config_downloadPath ++ "/" ++ "c") 0 (repeat 0 15)) = file_path file
    /\ ((file_offset file <= 0 <= file_offset file + file_length file - 1)
        \/ (file_offset file <= 29 <= file_offset file + file_length file - 1)).
Proof.
  assert (Hin : In (mkIOCall (config_downloadPath ++ "/" ++ "c") 0 (repeat 0 15))
                   (fst (doPieceIO three_files 30 0 (repeat 0 30))))
    by (vm_compute; left; reflexivity).
  split; [exact Hin|].
  exact (doPieceIO_end_files_only three_files 30 0 (repeat 0 30) _ Hin).
Defined.

Lemma doPieceIO_single_file_witness :
  [0; 1; 2] <> [] /\
  findFileContainingOffset [mkTorrentFile "a" 0 100] 20 = Ok (Some 0) /\
  doPieceIO [mkTorrentFile "a" 0 100] 10 2 [0; 1; 2]
  = ([mkIOCall (file_path (mkTorrentFile "a" 0 100)) 20 [0; 1; 2]], None).
Proof.
  split; [discriminate|]. split; [reflexivity|].
  exact (doPieceIO_single_file [mkTorrentFile "a" 0 100] 10 2 [0; 1; 2] 0
           (mkTorrentFile "a" 0 100) ltac:(discriminate) ltac:(reflexivity) ltac:(lia)
           ltac:(reflexivity) ltac:(simpl; lia) ltac:(simpl; lia)).
Defined.

(* ------------------------------------------------------------------------- *)
(** * Peer message handling (src/peer.ts) *)

Section PeerFacts.

Variable torrent_infoHash : string.
Variable math_random : nat -> Q.

Lemma downloadNextSubPiece_step s s' :
  downloadNextSubPiece math_random s = Ok s' ->
  downloadingSubPieces (ss_peer s') = downloadingSubPieces (ss_peer s)
  /\ exists op, ss_socket s' = ss_socket s ++ [op].
Proof.
  unfold downloadNextSubPiece.
  destruct (match downloadingPieceIndex (ss_peer s) with
            | Some idx => _ | None => Ok true end) as [repick|e]; cbn [bind]; [|discriminate].
  destruct repick.
  - destruct (filter_bitfield (ss_peer s) (incompleted_indexes (ss_pieces s))) as [cands|e];
      cbn [bind]; [|discriminate].
    destruct cands as [|c cs].
    + intros H. injection H as <-. split; [reflexivity|]. eexists. reflexivity.
    + match goal with |- context [match ?x with Some _ => _ | None => _ end] =>
        destruct x as [idx|] end; cbn [bind]; [|discriminate].
      cbn -[piece_at getFirstIncompletedSubPiece encodeMessage].
      destruct (piece_at _ _) as [p|e]; cbn [bind]; [|discriminate].
      destruct (getFirstIncompletedSubPiece _ _) as [[so sl]|e]; cbn [bind]; [|discriminate].
      destruct (encodeMessage _) as [msg|e]; cbn [bind]; [|discriminate].
      intros H. injection H as <-.
      split; [destruct (_ <=? _); reflexivity|]. eexists. reflexivity.
  - cbn -[piece_at getFirstIncompletedSubPiece encodeMessage].
    destruct (piece_at _ _) as [p|e]; cbn [bind]; [|discriminate].
    destruct (getFirstIncompletedSubPiece _ _) as [[so sl]|e]; cbn [bind]; [|discriminate].
    destruct (encodeMessage _) as [msg|e]; cbn [bind]; [|discriminate].
    intros H. injection H as <-.
    split; [destruct (_ <=? _); reflexivity|]. eexists. reflexivity.
Qed.

Lemma download_loop_step fuel : forall s s',
  download_loop math_random fuel s = Ok s' ->
  downloadingSubPieces (ss_peer s') = downloadingSubPieces (ss_peer s) + Z.of_nat fuel
  /\ length (ss_socket s') = (length (ss_socket s) + fuel)%nat.
Proof.
  induction fuel as [|fuel IH]; intros s s' H.
  - injection H as <-. split; [lia | lia].
  - cbn [download_loop] in H.
    destruct (downloadNextSubPiece math_random _) as [s1|e] eqn:E; cbn [bind] in H; [|discriminate].
    destruct (downloadNextSubPiece_step _ _ E) as [Hc (op & Hs)].
    destruct (IH _ _ H) as [Hc' Hs']. cbn in Hc, Hs.
    rewrite Hc', Hc, Hs', Hs, length_app. cbn [length]. split; lia.
Qed.

(** [downloadNextSubPieces()] leaves [max(4, n)] sub-pieces counted in
    flight and makes one socket call per round, also when a round ends the
    socket for lack of pieces. *)
Theorem downloadNextSubPieces_fills_pipeline s s' :
  downloadNextSubPieces math_random s = Ok s' ->
  downloadingSubPieces (ss_peer s') = Z.max 4 (downloadingSubPieces (ss_peer s))
  /\ length (ss_socket s')
     = (length (ss_socket s) + Z.to_nat (4 - downloadingSubPieces (ss_peer s)))%nat.
Proof.
  unfold downloadNextSubPieces, numConcurrentDownloadingSubPieces. intros H.
  destruct (download_loop_step _ _ _ H) as [Hc Hs]. split; [|exact Hs].
  rewrite Hc. lia.
Qed.

(** A BITFIELD message is accepted iff its length is
    [floor((pieces + 7) / 8)]; its bytes are then stored as they are, as
    the peer's BitSet over the number of pieces. *)
Theorem processMessage_bitfield s bf :
  let n := Z.of_nat (length (ss_pieces s)) in
  let ps := ss_peer s in
  processMessage torrent_infoHash math_random s (Bitfield bf)
  = if Z.of_nat (length bf) =? (n + 7) / 8
    then Ok (set_peer s (mkPeerState (handshaked ps) (Some (mkBitSet n bf))
                           (downloadingPieceIndex ps) (downloadingSubPieceOffset ps)
                           (downloadingSubPieces ps)))
    else Throw "unexpected bitfield length".
Proof.
  intros n ps. cbn [processMessage]. fold n ps.
  rewrite Z.quot_div_nonneg by lia.
  destruct (Z.eqb_spec (Z.of_nat (length bf)) ((n + 7) / 8)) as [E|E]; cbn [negb]; [|reflexivity].
  rewrite BitSet_new_copies_prefix' by lia. cbn [bind].
  rewrite firstn_all2 by lia.
  replace (Z.to_nat ((n + 7) / 8) - length bf)%nat with 0%nat by lia.
  rewrite app_nil_r. reflexivity.
Qed.

End PeerFacts.

Section DataHandler.

Variable torrent_infoHash : string.
Variable math_random : nat -> Q.

(** The [socket.on("data")] handler of a connected peer: [incomingBuffer]
    is [this._incomingBuffer] before the event, [data] the chunk received.
    It returns the session and the new [this._incomingBuffer]. A throw of
    [decodeMessage] or of [processMessage] is caught, the socket is ended
    and destroyed, and the error is rethrown. *)
Definition on_data (s : Session) (incomingBuffer data : Buffer) : result (Session * Buffer) :=
  let incomingBuffer := incomingBuffer ++ data in
  let! decoded := decodeMessage incomingBuffer in
  match decoded with
  | None => Ok (s, incomingBuffer)
  | Some (messageLength, message) =>
      let incomingBuffer := skipn (Z.to_nat messageLength) incomingBuffer in
      let! s := processMessage torrent_infoHash math_random s message in
      Ok (s, incomingBuffer)
  end.

Lemma be32_bytes v : Forall (fun x => is_byte x = true) (be32 v).
Proof.
  unfold be32, is_byte.
  repeat constructor; apply andb_true_iff; rewrite Z.leb_le, Z.ltb_lt;
    apply Z.mod_pos_bound; lia.
Qed.

Ltac byte_list :=
  repeat match goal with
  | |- Forall _ (be32 _) => apply be32_bytes
  | |- Forall _ (app _ _) => apply (proj2 (Forall_app _ _ _)); split
  | |- Forall _ (_ :: _) => apply Forall_cons; [vm_compute; reflexivity|]
  | |- Forall _ [] => constructor
  end.

Ltac byte_frame E :=
  match type of E with
  | Ok ?f = Ok _ =>
      assert (Hf : Forall (fun x => is_byte x = true) f) by byte_list; congruence
  end.

Lemma encode_fixed_bytes m frame :
  fixed_size_ok m = true -> encodeMessage m = Ok frame ->
  Forall (fun x => is_byte x = true) frame.
Proof.
  destruct m; cbn [fixed_size_ok]; intros H E; try discriminate H;
    try (vm_compute in E; injection E as <-; byte_list; fail).
  - apply u32_ok_spec in H. rewrite encode_have in E by exact H. byte_frame E.
  - apply andb_true_iff in H as [H Hc]. apply andb_true_iff in H as [Ha Hb].
    apply u32_ok_spec in Ha, Hb, Hc. rewrite encode_request in E by assumption.
    byte_frame E.
  - apply andb_true_iff in H as [H Hc]. apply andb_true_iff in H as [Ha Hb].
    apply u32_ok_spec in Ha, Hb, Hc. rewrite encode_cancel in E by assumption.
    byte_frame E.
Qed.

(** The data handler processes one message per event: when the buffered
    bytes start with a fixed-size frame, that message is processed and all
    following bytes, complete frames included, stay buffered. *)
Theorem on_data_one_message_per_event s m frame incomingBuffer data rest :
  fixed_size_ok m = true ->
  encodeMessage m = Ok frame ->
  incomingBuffer ++ data = frame ++ rest ->
  on_data s incomingBuffer data
  = (let! s' := processMessage torrent_infoHash math_random s m in
     Ok (s', rest)).
Proof.
  intros Hm He Hb.
  destruct (decodeMessage_encode_fixed m Hm) as (frame' & He' & Hd).
  rewrite He in He'. injection He' as <-.
  assert (Hd' : decodeMessage (frame ++ rest) = Ok (Some (Z.of_nat (length frame), m))).
  { apply decodeMessage_app_stable; [exact (encode_fixed_bytes m frame Hm He) | exact Hd |].
    intros bf ->. discriminate Hm. }
  unfold on_data. rewrite Hb, Hd'. cbn [bind].
  rewrite Nat2Z.id, skipn_app, skipn_all, Nat.sub_diag, skipn_O. reflexivity.
Qed.

(** A BITFIELD of the right length that arrives with more bytes in the same
    buffer takes those bytes into its bitfield, and the handler throws
    "unexpected bitfield length". *)
Theorem on_data_bitfield_then_more s bf frame incomingBuffer data rest :
  Z.of_nat (length bf) = (Z.of_nat (length (ss_pieces s)) + 7) / 8 ->
  rest <> [] ->
  1 + Z.of_nat (length bf) <= 4294967295 ->
  1 + Z.of_nat (length bf) <> 323119476 ->
  encodeMessage (Bitfield bf) = Ok frame ->
  incomingBuffer ++ data = frame ++ rest ->
  on_data s incomingBuffer data = Throw "unexpected bitfield length".
Proof.
  intros Hl Hr H1 H2 He Hb.
  destruct (decodeMessage_bitfield_rest bf rest H1 H2) as (frame' & He' & Hd).
  rewrite He in He'. injection He' as <-.
  unfold on_data. rewrite Hb, Hd. cbn [bind processMessage].
  rewrite Z.quot_div_nonneg by lia.
  replace (Z.of_nat (length (bf ++ rest)) =? (Z.of_nat (length (ss_pieces s)) + 7) / 8)
    with false; [reflexivity|].
  symmetry. apply Z.eqb_neq. rewrite length_app.
  destruct rest; [congruence|]. simpl length. lia.
Qed.

End DataHandler.

Definition pipeline_session : Session :=
  mkSession [] (mkPeerState true (Some (mkBitSet 0 [])) None None 1) [] [] 0.

Lemma downloadNextSubPieces_fills_pipeline_witness :
  exists s', downloadNextSubPieces (fun _ => 0%Q) pipeline_session = Ok s'
    /\ downloadingSubPieces (ss_peer s') = 4 /\ length (ss_socket s') = 3%nat.
Proof.
  destruct (downloadNextSubPieces (fun _ => 0%Q) pipeline_session) as [s'|e] eqn:E;
    [|vm_compute in E; discriminate].
  exists s'. split; [reflexivity|].
  destruct (downloadNextSubPieces_fills_pipeline _ _ _ E) as [H1 H2].
  rewrite H1, H2. split; reflexivity.
Defined.

Definition data_session : Session :=
  mkSession [mkPiece 0 16 "h" None (mkBitSet 1 [0]) [] 0] Peer_new [] [] 0.

Lemma on_data_one_message_per_event_witness :
  fixed_size_ok Choke = true /\ encodeMessage Choke = Ok [0; 0; 0; 1; 0] /\
  [0; 0] ++ [0; 1; 0; 0; 0; 0; 1; 2] = [0; 0; 0; 1; 0] ++ [0; 0; 0; 1; 2] /\
  on_data "h" (fun _ => 0%Q) data_session
    [0; 0] [0; 1; 0; 0; 0; 0; 1; 2]
  = Ok (data_session, [0; 0; 0; 1; 2]).
Proof.
  split; [reflexivity|]. split; [reflexivity|]. split; [reflexivity|].
  exact (on_data_one_message_per_event "h" (fun _ => 0%Q)
           data_session Choke [0; 0; 0; 1; 0] [0; 0] [0; 1; 0; 0; 0; 0; 1; 2] [0; 0; 0; 1; 2]
           eq_refl eq_refl eq_refl).
Defined.

Lemma on_data_bitfield_then_more_witness :
  Z.of_nat (length [128]) = (Z.of_nat (length (ss_pieces data_session)) + 7) / 8 /\
  [0; 0; 0; 1; 2] <> [] /\
  encodeMessage (Bitfield [128]) = Ok [0; 0; 0; 2; 5; 128] /\
  [0; 0; 0; 2; 5; 128; 0; 0] ++ [0; 1; 2] = [0; 0; 0; 2; 5; 128] ++ [0; 0; 0; 1; 2] /\
  on_data "h" (fun _ => 0%Q) data_session
    [0; 0; 0; 2; 5; 128; 0; 0] [0; 1; 2]
  = Throw "unexpected bitfield length".
Proof.
  split; [reflexivity|]. split; [discriminate|]. split; [vm_compute; reflexivity|].
  split; [reflexivity|].
  exact (on_data_bitfield_then_more "h" (fun _ => 0%Q)
           data_session [128] [0; 0; 0; 2; 5; 128] [0; 0; 0; 2; 5; 128; 0; 0] [0; 1; 2]
           [0; 0; 0; 1; 2] eq_refl ltac:(discriminate) ltac:(simpl; lia) ltac:(simpl; lia)
           ltac:(vm_compute; reflexivity) eq_refl).
Defined.

(* ------------------------------------------------------------------------- *)
(** * Tracker compact peer lists (src/tracker.ts) *)

(** [`${n}`] of an integral number: its decimal digits, after a minus sign
    when it is negative. *)
Definition number_to_string (n : Z) : string := NilZero.string_of_int (Z.to_int n).

(** [buf.readUInt16BE(offset)] *)
Definition readUInt16BE (buf : Buffer) (off : Z) : result Z :=
  if (0 <=? off) && (off + 2 <=? Z.of_nat (length buf))
  then let b i := nth (Z.to_nat (off + i)) buf 0 in
       Ok (b 0 * 256 + b 1)
  else Throw "ERR_OUT_OF_RANGE".

(** The compact branch of [Tracker.updatePeerList()] from [i] on: the
    [peerAddrs] pushed. [i] grows by 6 per round, so [length peerBuf + 1]
    rounds of fuel from [0] never run out. *)
Fixpoint compact_peers_loop (peerBuf : Buffer) (i : Z) (fuel : nat) : result (list string) :=
  match fuel with
  | O => Ok []
  | S fuel =>
      if i <? Z.of_nat (length peerBuf) then
        let! b0 := readUInt8 peerBuf i in
        let! b1 := readUInt8 peerBuf (i + 1) in
        let! b2 := readUInt8 peerBuf (i + 2) in
        let! b3 := readUInt8 peerBuf (i + 3) in
        let host := (number_to_string b0 ++ "." ++ number_to_string b1 ++ "."
                     ++ number_to_string b2 ++ "." ++ number_to_string b3)%string in
        let! p := readUInt16BE peerBuf (i + 4) in
        let port := number_to_string p in
        let! rest := compact_peers_loop peerBuf (i + 6) fuel in
        Ok ((host ++ ":" ++ port)%string :: rest)
      else Ok []
  end.

(** [peerAddrs] built from a compact [peers] buffer. *)
Definition compactPeerAddrs (peerBuf : Buffer) : result (list string) :=
  compact_peers_loop peerBuf 0 (S (length peerBuf)).

Lemma compact_loop_fuel peerBuf : forall f f' i,
  0 <= i ->
  (Z.to_nat (Z.of_nat (length peerBuf) - i) < f)%nat ->
  (Z.to_nat (Z.of_nat (length peerBuf) - i) < f')%nat ->
  compact_peers_loop peerBuf i f = compact_peers_loop peerBuf i f'.
Proof.
  induction f as [|f IH]; intros f' i Hi Hf Hf'; [lia|].
  destruct f' as [|f']; [lia|]. cbn [compact_peers_loop].
  destruct (Z.ltb_spec i (Z.of_nat (length peerBuf))) as [Hlt|]; [|reflexivity].
  rewrite (IH f' (i + 6)) by lia. reflexivity.
Qed.

Lemma readUInt8_shift l1 l2 i : 0 <= i ->
  readUInt8 (l1 ++ l2) (Z.of_nat (length l1) + i) = readUInt8 l2 i.
Proof.
  intros Hi. unfold readUInt8. rewrite length_app.
  replace ((0 <=? Z.of_nat (length l1) + i) && (Z.of_nat (length l1) + i <? Z.of_nat (length l1 + length l2)))
    with ((0 <=? i) && (i <? Z.of_nat (length l2)))
    by (destruct (Z.leb_spec 0 i), (Z.ltb_spec i (Z.of_nat (length l2))),
          (Z.leb_spec 0 (Z.of_nat (length l1) + i)),
          (Z.ltb_spec (Z.of_nat (length l1) + i) (Z.of_nat (length l1 + length l2))); lia).
  destruct ((0 <=? i) && (i <? Z.of_nat (length l2))); [|reflexivity].
  rewrite app_nth2 by lia. do 2 f_equal. lia.
Qed.

Lemma readUInt16BE_shift l1 l2 i : 0 <= i ->
  readUInt16BE (l1 ++ l2) (Z.of_nat (length l1) + i) = readUInt16BE l2 i.
Proof.
  intros Hi. unfold readUInt16BE. rewrite length_app.
  replace ((0 <=? Z.of_nat (length l1) + i) && (Z.of_nat (length l1) + i + 2 <=? Z.of_nat (length l1 + length l2)))
    with ((0 <=? i) && (i + 2 <=? Z.of_nat (length l2)))
    by (destruct (Z.leb_spec 0 i), (Z.leb_spec (i + 2) (Z.of_nat (length l2))),
          (Z.leb_spec 0 (Z.of_nat (length l1) + i)),
          (Z.leb_spec (Z.of_nat (length l1) + i + 2) (Z.of_nat (length l1 + length l2))); lia).
  destruct ((0 <=? i) && (i + 2 <=? Z.of_nat (length l2))); [|reflexivity].
  rewrite !app_nth2 by lia.
  replace (Z.to_nat (Z.of_nat (length l1) + i + 0) - length l1)%nat with (Z.to_nat (i + 0)) by lia.
  replace (Z.to_nat (Z.of_nat (length l1) + i + 1) - length l1)%nat with (Z.to_nat (i + 1)) by lia.
  reflexivity.
Qed.

Lemma compact_loop_shift l1 l2 : forall f i, 0 <= i ->
  compact_peers_loop (l1 ++ l2) (Z.of_nat (length l1) + i) f = compact_peers_loop l2 i f.
Proof.
  induction f as [|f IH]; intros i Hi; [reflexivity|]. cbn [compact_peers_loop].
  replace (Z.of_nat (length l1) + i <? Z.of_nat (length (l1 ++ l2))) with (i <? Z.of_nat (length l2))
    by (rewrite length_app; destruct (Z.ltb_spec i (Z.of_nat (length l2))),
          (Z.ltb_spec (Z.of_nat (length l1) + i) (Z.of_nat (length l1 + length l2))); lia).
  rewrite <- !Z.add_assoc, !readUInt8_shift, readUInt16BE_shift, IH by lia.
  reflexivity.
Qed.

Lemma readUInt16BE_app b rest off v :
  readUInt16BE b off = Ok v -> readUInt16BE (b ++ rest) off = Ok v.
Proof.
  unfold readUInt16BE. intros H.
  destruct ((0 <=? off) && (off + 2 <=? Z.of_nat (length b))) eqn:E; [|discriminate].
  apply andb_true_iff in E as [E1 E2]. apply Z.leb_le in E1, E2.
  replace ((0 <=? off) && (off + 2 <=? Z.of_nat (length (b ++ rest)))) with true
    by (symmetry; rewrite andb_true_iff, !Z.leb_le, length_app; lia).
  rewrite <- H. rewrite !app_nth1 by lia. reflexivity.
Qed.

Lemma compactPeerAddrs_cons' b0 b1 b2 b3 b4 b5 rest :
  compactPeerAddrs ([b0; b1; b2; b3; b4; b5] ++ rest)
  = let! addrs := compactPeerAddrs rest in
    Ok (((number_to_string b0 ++ "." ++ number_to_string b1 ++ "."
          ++ number_to_string b2 ++ "." ++ number_to_string b3)
         ++ ":" ++ number_to_string (b4 * 256 + b5))%string :: addrs).
Proof.
  set (e := [b0; b1; b2; b3; b4; b5]).
  unfold compactPeerAddrs at 1.
  replace (S (length (e ++ rest))) with (S (length rest + 6)) by (rewrite length_app; simpl; lia).
  cbn [compact_peers_loop].
  replace (0 <? Z.of_nat (length (e ++ rest))) with true
    by (symmetry; apply Z.ltb_lt; rewrite length_app; simpl length; lia).
  rewrite (readUInt8_app e rest 0 b0 eq_refl), (readUInt8_app e rest (0 + 1) b1 eq_refl),
    (readUInt8_app e rest (0 + 2) b2 eq_refl), (readUInt8_app e rest (0 + 3) b3 eq_refl),
    (readUInt16BE_app e rest (0 + 4) (b4 * 256 + b5) eq_refl).
  cbn [bind].
  replace (0 + 6) with (Z.of_nat (length e) + 0) by reflexivity.
  rewrite compact_loop_shift by lia.
  rewrite (compact_loop_fuel rest _ (S (length rest)) 0) by lia.
  reflexivity.
Qed.

(** The compact peer list is read six bytes per peer: the first entry gives
    ["a.b.c.d:port"] with the port read big-endian, followed by the entries
    of the rest. *)
Theorem compactPeerAddrs_cons b0 b1 b2 b3 b4 b5 rest :
  compactPeerAddrs ([b0; b1; b2; b3; b4; b5] ++ rest)
  = let! addrs := compactPeerAddrs rest in
    Ok (((number_to_string b0 ++ "." ++ number_to_string b1 ++ "."
          ++ number_to_string b2 ++ "." ++ number_to_string b3)
         ++ ":" ++ number_to_string (b4 * 256 + b5))%string :: addrs).
Proof. apply compactPeerAddrs_cons'. Qed.

Lemma compact_short_throws l :
  (0 < length l < 6)%nat -> compactPeerAddrs l = Throw "ERR_OUT_OF_RANGE".
Proof.
  intros H.
  destruct l as [|x0 [|x1 [|x2 [|x3 [|x4 [|x5 l]]]]]]; simpl in H; try lia; reflexivity.
Qed.

(** A compact peer list of [6k] bytes gives [k] addresses; any other length
    throws [ERR_OUT_OF_RANGE], so no address of that response is kept. *)
Theorem compactPeerAddrs_whole_entries (peerBuf : Buffer) :
  (Nat.modulo (length peerBuf) 6 = 0%nat ->
   exists addrs, compactPeerAddrs peerBuf = Ok addrs
     /\ length addrs = Nat.div (length peerBuf) 6)
  /\ (Nat.modulo (length peerBuf) 6 <> 0%nat ->
      compactPeerAddrs peerBuf = Throw "ERR_OUT_OF_RANGE").
Proof.
  assert (Hall : forall n (l : Buffer), (length l < n)%nat ->
    (Nat.modulo (length l) 6 = 0%nat ->
     exists addrs, compactPeerAddrs l = Ok addrs /\ length addrs = Nat.div (length l) 6)
    /\ (Nat.modulo (length l) 6 <> 0%nat -> compactPeerAddrs l = Throw "ERR_OUT_OF_RANGE")).
  { induction n as [|n IH]; intros l Hl; [lia|].
    destruct l as [|x0 [|x1 [|x2 [|x3 [|x4 [|x5 rest]]]]]];
      try (split; intros Hm; [vm_compute in Hm; discriminate
                             | apply compact_short_throws; simpl; lia]).
    - split; [intros _; exists []; split; reflexivity | intros Hm; exfalso; apply Hm; reflexivity].
    - change (x0 :: x1 :: x2 :: x3 :: x4 :: x5 :: rest) with ([x0; x1; x2; x3; x4; x5] ++ rest).
      rewrite compactPeerAddrs_cons'.
      assert (Hlen : length ([x0; x1; x2; x3; x4; x5] ++ rest) = (length rest + 1 * 6)%nat)
        by (rewrite length_app; simpl; lia).
      rewrite Hlen, Nat.Div0.mod_add, Nat.div_add by lia.
      destruct (IH rest) as [H1 H2]; [simpl in Hl; lia|].
      split.
      + intros Hm. destruct (H1 Hm) as (addrs & Ha & Hn). rewrite Ha. cbn [bind].
        eexists. split; [reflexivity|]. simpl length. lia.
      + intros Hm. rewrite (H2 Hm). reflexivity. }
  apply (Hall (S (length peerBuf))). lia.
Qed.

(* ------------------------------------------------------------------------- *)
(** * Peer list merge and download progress (src/downTorrent.ts) *)

(** The [Peer] constructor of src/peer.ts: [this._port =
    parseInt(peerAddr.split(":")[1])], then [this.connect()] calls
    [net.createConnection(this._port, this._host)], which throws
    [ERR_SOCKET_BAD_PORT] synchronously unless the port is an integer in
    [0..65535] (Node's [validatePort]: [+port !== (+port >>> 0) ||
    port > 0xFFFF]). The rest of the constructor does not throw. *)

(** [peerAddr.split(":")[1]]: the text between the first and the second
    [':'], or [None] ([undefined]) when there is no [':']. *)
Fixpoint take_field (s : string) : string :=
  match s with
  | String c r => if Ascii.eqb c ":" then EmptyString else String c (take_field r)
  | EmptyString => EmptyString
  end.

Fixpoint split_second (s : string) : option string :=
  match s with
  | String c r => if Ascii.eqb c ":" then Some (take_field r) else split_second r
  | EmptyString => None
  end.

Fixpoint dec_prefix_value (s : string) (acc : option Z) : option Z :=
  match s with
  | String c r =>
      let n := nat_of_ascii c in
      if ((48 <=? n) && (n <=? 57))%nat
      then dec_prefix_value r (Some (match acc with Some a => a | None => 0 end * 10
                                     + (Z.of_nat n - 48)))
      else acc
  | EmptyString => acc
  end.

(** [parseInt(s)] with no radix: hexadecimal after a [0x] or [0X] prefix,
    decimal otherwise; [None] is NaN, and [-0] is [Some 0]. *)
Definition parseInt (s : string) : option Z :=
  let s := trim_start s in
  let '(sign, s) := match s with
                    | String "-" r => (-1, r)
                    | String "+" r => (1, r)
                    | _ => (1, s)
                    end in
  match s with
  | String "0" (String c r) =>
      if (Ascii.eqb c "x" || Ascii.eqb c "X")%bool
      then option_map (Z.mul sign) (hex_prefix_value r None)
      else option_map (Z.mul sign) (dec_prefix_value s None)
  | _ => option_map (Z.mul sign) (dec_prefix_value s None)
  end.

(** Whether [new Peer(peerAddr)] returns normally ([undefined] is parsed as
    the string ["undefined"], which is NaN). *)
Definition new_Peer_ok (peerAddr : string) : bool :=
  let port := match split_second peerAddr with
              | Some f => parseInt f
              | None => parseInt "undefined"
              end in
  match port with
  | Some v => (0 <=? v) && (v <=? 65535)
  | None => false
  end.

(** The [.then()] callback of [updatePeerList] in src/downTorrent.ts for
    one tracker: [state.peers], given by the [peerAddr] of each peer, after
    [tracker.peerAddrs.forEach(...)], and whether the callback threw. A
    throwing [new Peer(peerAddr)] pushes nothing and aborts the [forEach];
    the peers pushed before it stay, and the [.catch()] logs the error. *)
Fixpoint add_tracker_peers (peers peerAddrs : list string) : list string * bool :=
  match peerAddrs with
  | [] => (peers, false)
  | peerAddr :: rest =>
      if forallb (fun peer => negb (String.eqb peer peerAddr)) peers
      then if new_Peer_ok peerAddr
           then add_tracker_peers (peers ++ [peerAddr]) rest
           else (peers, true)
      else add_tracker_peers peers rest
  end.

(** Merging a tracker's addresses into a duplicate-free peer list only
    appends at the end and keeps the list duplicate-free (also when the
    tracker lists an address twice); every peer afterwards has an old or a
    tracker address. The callback throws exactly when some tracker address
    not already in the list has an invalid port; when it does not throw,
    the list holds every old and every tracker address. *)
Theorem add_tracker_peers_no_duplicates peers peerAddrs :
  NoDup peers ->
  exists added, fst (add_tracker_peers peers peerAddrs) = peers ++ added
    /\ NoDup (fst (add_tracker_peers peers peerAddrs))
    /\ (forall a, In a (fst (add_tracker_peers peers peerAddrs)) -> In a peers \/ In a peerAddrs)
    /\ (snd (add_tracker_peers peers peerAddrs) = true
        <-> exists a, In a peerAddrs /\ ~ In a peers /\ new_Peer_ok a = false)
    /\ (snd (add_tracker_peers peers peerAddrs) = false ->
        forall a, In a peers \/ In a peerAddrs -> In a (fst (add_tracker_peers peers peerAddrs))).
Proof.
  revert peers.
  induction peerAddrs as [|x xs IH]; intros peers Hnd; cbn [add_tracker_peers].
  - exists []. rewrite app_nil_r. cbn [fst snd].
    split; [reflexivity|]. split; [exact Hnd|]. split; [intros a H; left; exact H|].
    split; [split; [discriminate | intros (a & [] & _)]|].
    intros _ a [H|[]]. exact H.
  - destruct (forallb (fun peer => negb (String.eqb peer x)) peers) eqn:E.
    + assert (Hx : ~ In x peers).
      { intros Hin. rewrite forallb_forall in E. specialize (E x Hin).
        rewrite String.eqb_refl in E. discriminate. }
      destruct (new_Peer_ok x) eqn:Hok.
      * assert (Hnd' : NoDup (peers ++ [x])).
        { apply NoDup_app; [exact Hnd | constructor; [intros []|constructor] |].
          intros a Ha [<-|[]]. exact (Hx Ha). }
        destruct (IH (peers ++ [x]) Hnd') as (added & Ha & Hn & Hm & Ht & Hu).
        exists (x :: added). split; [rewrite Ha, <- app_assoc; reflexivity|].
        split; [exact Hn|].
        split.
        { intros a Hin. destruct (Hm a Hin) as [H|H].
          - apply in_app_iff in H. destruct H as [H|[<-|[]]]; [left; exact H | right; left; reflexivity].
          - right; right; exact H. }
        split.
        { rewrite Ht. split.
          - intros (a & Ha' & Hna & Hf). exists a. split; [right; exact Ha'|].
            split; [|exact Hf]. intros H. apply Hna. apply in_app_iff. left. exact H.
          - intros (a & [<-|Ha'] & Hna & Hf); [congruence|].
            exists a. split; [exact Ha'|]. split; [|exact Hf].
            intros H. apply in_app_iff in H. destruct H as [H|[<-|[]]]; [exact (Hna H) | congruence]. }
        intros Hs a Ha'. apply Hu; [exact Hs|].
        destruct Ha' as [H|[<-|H]].
        -- left. apply in_app_iff. left. exact H.
        -- left. apply in_app_iff. right. left. reflexivity.
        -- right. exact H.
      * exists []. rewrite app_nil_r. cbn [fst snd].
        split; [reflexivity|]. split; [exact Hnd|]. split; [intros a H; left; exact H|].
        split; [split; [intros _; exists x; split; [left; reflexivity|]; split; assumption
                       | reflexivity]|].
        discriminate.
    + assert (Hx : In x peers).
      { apply Bool.not_true_iff_false in E. destruct (in_dec string_dec x peers) as [H|H];
          [exact H|]. exfalso. apply E. apply forallb_forall. intros y Hy.
        destruct (String.eqb_spec y x) as [->|]; [contradiction | reflexivity]. }
      destruct (IH peers Hnd) as (added & Ha & Hn & Hm & Ht & Hu).
      exists added. split; [exact Ha|]. split; [exact Hn|].
      split.
      { intros a Hin. destruct (Hm a Hin) as [H|H]; [left; exact H | right; right; exact H]. }
      split.
      { rewrite Ht. split.
        - intros (a & Ha' & Hna & Hf). exists a. split; [right; exact Ha'|]. split; assumption.
        - intros (a & [<-|Ha'] & Hna & Hf); [contradiction|].
          exists a. split; [exact Ha'|]. split; assumption. }
      intros Hs a Ha'. apply Hu; [exact Hs|].
      destruct Ha' as [H|[<-|H]]; [left; exact H | left; exact Hx | right; exact H].
Qed.

(** A JavaScript number as far as the progress tick needs it. *)
Inductive Num :=
| Finite (q : Q)
| NaN
| Infinity
| NegInfinity.

(** [a / b] of two integral numbers. *)
Definition js_div (a b : Z) : Num :=
  if b =? 0 then (if a =? 0 then NaN else if 0 <? a then Infinity else NegInfinity)
  else Finite (inject_Z a / inject_Z b).

(** [x >= 1] *)
Definition js_ge_one (x : Num) : bool :=
  match x with
  | Finite q => Qle_bool 1 q
  | NaN => false
  | Infinity => true
  | NegInfinity => false
  end.

(** The progress tick of src/downTorrent.ts: whether it reports
    ["download finished!"] and exits the process. *)
Definition progress_tick_finishes (pieces : list Piece) : bool :=
  let numCompletedPieces := Z.of_nat (length (filter completed pieces)) in
  let completedRatio := js_div numCompletedPieces (Z.of_nat (length pieces)) in
  js_ge_one completedRatio.

Lemma filter_length_all {A} (f : A -> bool) l :
  length (filter f l) = length l <-> forallb f l = true.
Proof.
  induction l as [|x l IH]; simpl; [tauto|].
  pose proof (filter_length_le f l).
  destruct (f x); simpl; split; intros H'.
  - apply IH. lia.
  - apply IH in H'. lia.
  - lia.
  - discriminate.
Qed.

(** The progress tick finishes the download iff there is at least one piece
    and every piece is completed; with no pieces the ratio is NaN. *)
Theorem progress_tick_finishes_iff pieces :
  progress_tick_finishes pieces = true <-> pieces <> [] /\ forallb completed pieces = true.
Proof.
  unfold progress_tick_finishes, js_div.
  destruct pieces as [|p ps]; [simpl; split; [discriminate | intros [[] _]; reflexivity]|].
  set (n := length (p :: ps)). set (c := length (filter completed (p :: ps))).
  assert (Hn : (0 < n)%nat) by (unfold n; simpl; lia).
  assert (Hc : (c <= n)%nat) by apply filter_length_le.
  replace (Z.of_nat n =? 0) with false by (symmetry; apply Z.eqb_neq; lia).
  cbn [js_ge_one]. rewrite Qle_bool_iff, <- filter_length_all. fold n c.
  assert (Hq : (1 <= inject_Z (Z.of_nat c) / inject_Z (Z.of_nat n))%Q <-> (n <= c)%nat).
  { destruct (Z.of_nat n) as [|pn|pn] eqn:En; [lia| |lia].
    unfold Qdiv, Qinv, Qmult, Qle, inject_Z. cbn [Qnum Qden]. lia. }
  rewrite Hq. split; [intros H; split; [discriminate | lia] | intros [_ H]; lia].
Qed.

Lemma add_tracker_peers_no_duplicates_witness :
  add_tracker_peers ["1.2.3.4:80"] ["5.6.7.8:81"; "1.2.3.4:80"; "5.6.7.8:81"; "9.9.9.9:0x1A"]
  = (["1.2.3.4:80"; "5.6.7.8:81"; "9.9.9.9:0x1A"], false)
  /\ add_tracker_peers ["1.2.3.4:80"] ["5.6.7.8:81"; "2001:db8::1:6881"; "9.9.9.9:1"]
  = (["1.2.3.4:80"; "5.6.7.8:81"], true)
  /\ NoDup (fst (add_tracker_peers ["1.2.3.4:80"] ["5.6.7.8:81"; "2001:db8::1:6881"; "9.9.9.9:1"]))
  /\ (exists a, In a ["5.6.7.8:81"; "2001:db8::1:6881"; "9.9.9.9:1"]
                /\ ~ In a ["1.2.3.4:80"] /\ new_Peer_ok a = false).
Proof.
  assert (Hnd : NoDup ["1.2.3.4:80"]) by (constructor; [intros []|constructor]).
  split; [reflexivity|]. split; [reflexivity|].
  destruct (add_tracker_peers_no_duplicates ["1.2.3.4:80"]
              ["5.6.7.8:81"; "2001:db8::1:6881"; "9.9.9.9:1"] Hnd) as (_ & _ & H & _ & Ht & _).
  split; [exact H|]. apply Ht. reflexivity.
Defined.

(* ------------------------------------------------------------------ *)
(* Info hash hex encoding (src/peerMessage.ts)                          *)
(* ------------------------------------------------------------------ *)

(** The two uppercase hex characters of one byte. *)
Definition hex_pair (b : Z) : string :=
  String (hex_digit_upper (b / 16)) (String (hex_digit_upper (b mod 16)) EmptyString).

Definition byte_values : list Z := map Z.of_nat (seq 0 256).

Lemma in_byte_values b : 0 <= b < 256 -> In b byte_values.
Proof.
  intros Hb. unfold byte_values. apply in_map_iff. exists (Z.to_nat b). split; [lia|].
  apply in_seq. lia.
Qed.

Definition hex_pair_ok (b : Z) : bool :=
  match parseInt16 (hex_pair b) with Some v => v =? b | None => false end
  && Ascii.eqb (ascii_toUpper (hex_digit_lower (b / 16))) (hex_digit_upper (b / 16))
  && Ascii.eqb (ascii_toUpper (hex_digit_lower (b mod 16))) (hex_digit_upper (b mod 16))
  && Ascii.eqb (ascii_toUpper (hex_digit_upper (b / 16))) (hex_digit_upper (b / 16))
  && Ascii.eqb (ascii_toUpper (hex_digit_upper (b mod 16))) (hex_digit_upper (b mod 16)).

Lemma hex_pair_spec b : 0 <= b < 256 ->
  parseInt16 (hex_pair b) = Some b
  /\ ascii_toUpper (hex_digit_lower (b / 16)) = hex_digit_upper (b / 16)
  /\ ascii_toUpper (hex_digit_lower (b mod 16)) = hex_digit_upper (b mod 16)
  /\ ascii_toUpper (hex_digit_upper (b / 16)) = hex_digit_upper (b / 16)
  /\ ascii_toUpper (hex_digit_upper (b mod 16)) = hex_digit_upper (b mod 16).
Proof.
  intros Hb.
  assert (Hall : forallb hex_pair_ok byte_values = true) by (vm_compute; reflexivity).
  pose proof (proj1 (forallb_forall _ _) Hall b (in_byte_values b Hb)) as H.
  unfold hex_pair_ok in H.
  destruct (parseInt16 (hex_pair b)) as [v|]; [|discriminate].
  repeat rewrite andb_true_iff in H. destruct H as [[[[Hv H1] H2] H3] H4].
  apply Z.eqb_eq in Hv. apply Ascii.eqb_eq in H1, H2, H3, H4. subst v. auto.
Qed.

Lemma byte_bounds b : is_byte b = true -> 0 <= b < 256.
Proof. unfold is_byte. rewrite andb_true_iff, Z.leb_le, Z.ltb_lt. lia. Qed.

Lemma hex_lower_to_upper raw : Forall (fun b => is_byte b = true) raw ->
  str_toUpper (string_of_list_ascii
    (flat_map (fun b => [hex_digit_lower (b / 16); hex_digit_lower (b mod 16)]) raw))
  = hex_digest_upper raw.
Proof.
  induction 1 as [|b raw Hb _ IH]; [reflexivity|].
  destruct (hex_pair_spec b (byte_bounds b Hb)) as (_ & E1 & E2 & _ & _).
  cbn [flat_map app string_of_list_ascii str_toUpper hex_digest_upper].
  rewrite E1, E2, IH. reflexivity.
Qed.

Lemma substring_hex_digest raw : forall i,
  (i < length raw)%nat ->
  substring (2 * i) 2 (hex_digest_upper raw) = hex_pair (nth i raw 0).
Proof.
  induction raw as [|b raw IH]; intros i Hi; [simpl in Hi; lia|].
  destruct i as [|i]; [cbn; destruct (hex_digest_upper raw); reflexivity|].
  replace (2 * S i)%nat with (S (S (2 * i))) by lia.
  simpl in Hi. cbn [hex_digest_upper substring nth].
  apply IH. lia.
Qed.

Lemma str_toUpper_hex_digest raw : Forall (fun b => is_byte b = true) raw ->
  str_toUpper (hex_digest_upper raw) = hex_digest_upper raw.
Proof.
  induction 1 as [|b raw Hb _ IH]; [reflexivity|].
  destruct (hex_pair_spec b (byte_bounds b Hb)) as (_ & _ & _ & E1 & E2).
  cbn [hex_digest_upper str_toUpper]. rewrite E1, E2, IH. reflexivity.
Qed.

Lemma hex_run_hex_digest raw : forall k, Forall (fun b => is_byte b = true) raw ->
  (k <= 2 * length raw)%nat -> hex_run_at k (hex_digest_upper raw) = true.
Proof.
  induction raw as [|b raw IH]; intros k HF Hk; [destruct k; [reflexivity | simpl in Hk; lia]|].
  inversion HF as [|? ? Hb HF']; subst. apply byte_bounds in Hb.
  assert (U1 : is_upper_hex (hex_digit_upper (b / 16)) = true)
    by (apply hex_digit_upper_is_hex; split; [apply Z.div_pos | apply Z.div_lt_upper_bound]; lia).
  assert (U2 : is_upper_hex (hex_digit_upper (b mod 16)) = true)
    by (apply hex_digit_upper_is_hex; apply Z.mod_pos_bound; lia).
  cbn [hex_digest_upper].
  destruct k as [|[|k]]; [reflexivity| |].
  - cbn [hex_run_at]. rewrite U1. reflexivity.
  - cbn [hex_run_at]. rewrite U1, U2. apply IH; [exact HF' | simpl in Hk; lia].
Qed.

Lemma hex_run_has_hex_run k s : hex_run_at k s = true -> has_hex_run k s = true.
Proof. intros H. destruct s; simpl; rewrite H; reflexivity. Qed.

Lemma firstn_S_nth {A} (l : list A) k d : (k < length l)%nat ->
  firstn (S k) l = firstn k l ++ [nth k l d].
Proof.
  revert k; induction l as [|x l IH]; intros k Hk; [simpl in Hk; lia|].
  destruct k as [|k]; [reflexivity|]. simpl in Hk.
  change (x :: firstn (S k) l = (x :: firstn k l) ++ [nth k l d]). rewrite (IH k) by lia. reflexivity.
Qed.

(** For every 20-byte info hash [raw], [getHexDigestedInfoHash] yields its
    uppercase hex digest, and [getRawInfoHash] parses that digest back to
    exactly the same 20 bytes. *)
Theorem infoHash_raw_hex_roundtrip raw :
  length raw = 20%nat -> Forall (fun b => is_byte b = true) raw ->
  getHexDigestedInfoHash raw = Ok (hex_digest_upper raw)
  /\ getRawInfoHash (hex_digest_upper raw) = Ok raw.
Proof.
  intros Hl HF. split.
  { unfold getHexDigestedInfoHash. rewrite Hl. cbn [Nat.eqb negb].
    rewrite hex_lower_to_upper by exact HF. reflexivity. }
  unfold getRawInfoHash.
  replace (has_hex_run 20 (str_toUpper (hex_digest_upper raw))) with true
    by (symmetry; rewrite str_toUpper_hex_digest by exact HF; apply hex_run_has_hex_run;
        apply hex_run_hex_digest; [exact HF | lia]).
  cbn [negb].
  assert (Hk : forall k, (k <= 20)%nat ->
    fold_left (fun acc i => let! b := acc in
                 writeUInt8 b (parseInt16 (substring (2 * i) 2 (hex_digest_upper raw))) (Z.of_nat i))
      (seq 0 k) (Ok (Buffer_alloc 20))
    = Ok (firstn k raw ++ repeat 0 (20 - k))).
  { induction k as [|k IH]; intros Hk; [reflexivity|].
    rewrite seq_S, fold_left_app, IH by lia. cbn [fold_left bind]. rewrite Nat.add_0_l.
    rewrite substring_hex_digest by lia.
    assert (Hb : 0 <= nth k raw 0 < 256).
    { apply byte_bounds. rewrite Forall_forall in HF. apply HF, nth_In. lia. }
    destruct (hex_pair_spec _ Hb) as (-> & _).
    replace (20 - k)%nat with (S (20 - S k)) by lia. cbn [repeat].
    replace (Z.of_nat k) with (Z.of_nat (length (firstn k raw)))
      by (rewrite length_firstn; f_equal; lia).
    rewrite writeUInt8_at by lia.
    rewrite (firstn_S_nth raw k 0) by lia. rewrite <- app_assoc. reflexivity. }
  rewrite (Hk 20%nat) by lia. rewrite firstn_all2 by lia. simpl. rewrite app_nil_r. reflexivity.
Qed.

Lemma infoHash_raw_hex_roundtrip_witness :
  getHexDigestedInfoHash [0; 255; 16; 1; 171; 205; 239; 18; 52; 86; 120; 154; 188; 222; 240; 15; 127; 128; 9; 160]
  = Ok "00FF1001ABCDEF123456789ABCDEF00F7F8009A0" /\
  getRawInfoHash "00FF1001ABCDEF123456789ABCDEF00F7F8009A0"
  = Ok [0; 255; 16; 1; 171; 205; 239; 18; 52; 86; 120; 154; 188; 222; 240; 15; 127; 128; 9; 160].
Proof.
  apply (infoHash_raw_hex_roundtrip
           [0; 255; 16; 1; 171; 205; 239; 18; 52; 86; 120; 154; 188; 222; 240; 15; 127; 128; 9; 160]).
  - reflexivity.
  - repeat constructor.
Defined.

(* ------------------------------------------------------------------------- *)
(** * The request pipeline of all peers (src/peer.ts, src/downTorrent.ts) *)

(** The process state the peers share: [state.pieces], the peers of
    [state.peers], and the number of [Math.random()] calls so far. *)
Record World := mkWorld {
  w_pieces : list Piece;
  w_peers : list PeerState;
  w_randoms : nat
}.

(** The callbacks that touch this state:
    - [PeerAdded]: [state.peers.push(new Peer(peerAddr))] in [updatePeerList];
    - [PeerRemoved i]: the out-dated peer filter drops peer [i];
    - [MessageArrived i m]: the data handler of peer [i] decodes [m] and
      runs [processMessage(m)] (any message is allowed here, whether or
      not a frame can carry it);
    - [CacheCleared shuffled]: the clear-cache tick, with [shuffled] the
      result of its [shuffle]. *)
Inductive Event :=
| PeerAdded
| PeerRemoved (i : nat)
| MessageArrived (i : nat) (m : PeerMessage)
| CacheCleared (shuffled : list nat).

Definition remove_nth {A} (i : nat) (l : list A) : list A := firstn i l ++ skipn (S i) l.

Section World.

Variable torrent_infoHash : string.
Variable math_random : nat -> Q.

(** One callback. A throw out of a data handler is rethrown by it and is
    not caught anywhere: it ends the process, so the run stops there. *)
Definition world_step (w : World) (e : Event) : result World :=
  match e with
  | PeerAdded => Ok (mkWorld (w_pieces w) (w_peers w ++ [Peer_new]) (w_randoms w))
  | PeerRemoved i => Ok (mkWorld (w_pieces w) (remove_nth i (w_peers w)) (w_randoms w))
  | MessageArrived i m =>
      match nth_error (w_peers w) i with
      | None => Ok w
      | Some ps =>
          let! s := processMessage torrent_infoHash math_random
                      (mkSession (w_pieces w) ps [] [] (w_randoms w)) m in
          Ok (mkWorld (ss_pieces s) (set_nth i (ss_peer s) (w_peers w)) (ss_randoms s))
      end
  | CacheCleared shuffled =>
      Ok (mkWorld (clear_cache_tick shuffled (w_pieces w)) (w_peers w) (w_randoms w))
  end.

Fixpoint world_run (w : World) (es : list Event) : result World :=
  match es with
  | [] => Ok w
  | e :: rest => let! w := world_step w e in world_run w rest
  end.

End World.

(** [state.pieces = Array.from({length: n}, (_, i) =>
      new Piece(i, state.torrent.pieceLength, state.torrent.pieces[i]))],
    from index [i] on. *)
Fixpoint init_pieces (disk_piece_verified : Z -> bool) (pieceLength : Z)
    (hashes : list string) (i : Z) : result (list Piece) :=
  match hashes with
  | [] => Ok []
  | h :: rest =>
      let! p := Piece_new disk_piece_verified i pieceLength h in
      let! ps := init_pieces disk_piece_verified pieceLength rest (i + 1) in
      Ok (p :: ps)
  end.

Definition unreachable_error : string := "unreachable -- cannot get first incompleted sub piece".

(* ------------------------------------------------------------------------- *)
(** ** Invariants of the pipeline *)

(** A piece as the constructor leaves it when it is not on disk: count 0,
    a mask of [ceil(pieceLength / 16384)] bits, all bytes zero. *)
Definition piece_fresh (p : Piece) : Prop :=
  subPieceCompletedCount p = 0
  /\ 0 <= pieceLength p
  /\ bs_length (subPieceCompleted p)
     = Z.quot (pieceLength p + subPieceLength - 1) subPieceLength
  /\ bs_buf (subPieceCompleted p)
     = repeat 0 (Z.to_nat ((bs_length (subPieceCompleted p) + 7) / 8)).

Definition piece_ok (p : Piece) : Prop := completed p = true \/ piece_fresh p.

(** A peer's cursor: an offset that is a non-negative multiple of 16384,
    0 or inside the piece it points at. *)
Definition cursor_ok (lens : list Z) (ps : PeerState) : Prop :=
  forall idx off L,
    downloadingPieceIndex ps = Some idx -> downloadingSubPieceOffset ps = Some off ->
    0 <= idx -> nth_error lens (Z.to_nat idx) = Some L ->
    0 <= off /\ off mod subPieceLength = 0 /\ (off = 0 \/ off < L).

Definition world_ok (w : World) : Prop :=
  Forall piece_ok (w_pieces w)
  /\ Forall (cursor_ok (map pieceLength (w_pieces w))) (w_peers w).

(** A computation that either returns a value satisfying [P] or throws an
    error other than the unreachable one. *)
Definition safe {A} (P : A -> Prop) (r : result A) : Prop :=
  match r with
  | Ok a => P a
  | Throw e => e <> unreachable_error
  end.

Lemma safe_bind {A B} (P : A -> Prop) (Q : B -> Prop) (r : result A) (f : A -> result B) :
  safe P r -> (forall a, P a -> safe Q (f a)) -> safe Q (bind r f).
Proof. destruct r; simpl; auto. Qed.

Lemma safe_ok {A} (P : A -> Prop) a : P a -> safe P (Ok a).
Proof. simpl. auto. Qed.

Ltac not_unreachable :=
  unfold unreachable_error; discriminate.

Lemma readUInt8_safe buf off : safe (fun _ => True) (readUInt8 buf off).
Proof. unfold readUInt8. destruct (_ && _); simpl; [exact I | not_unreachable]. Qed.

Lemma getBit_safe bs i : safe (fun _ => True) (getBit bs i).
Proof.
  unfold getBit. apply (safe_bind (fun _ => True)); [apply readUInt8_safe|].
  intros. exact I.
Qed.

Lemma peer_getBit_safe ps i : safe (fun _ => True) (peer_getBit ps i).
Proof. unfold peer_getBit. destruct (bitfield ps); [apply getBit_safe | not_unreachable]. Qed.

Lemma filter_bitfield_safe ps idxs :
  safe (fun cands => incl cands idxs) (filter_bitfield ps idxs).
Proof.
  induction idxs as [|i rest IH]; cbn [filter_bitfield].
  - apply safe_ok. intros x [].
  - apply (safe_bind (fun _ => True)); [apply peer_getBit_safe|]. intros b _.
    apply (safe_bind (fun c => incl c rest)); [exact IH|]. intros c Hc.
    apply safe_ok. destruct b.
    + intros x [<-|Hx]; [left; reflexivity | right; apply Hc, Hx].
    + intros x Hx. right. apply Hc, Hx.
Qed.

Lemma piece_at_safe pieces i :
  safe (fun p => 0 <= i /\ nth_error pieces (Z.to_nat i) = Some p) (piece_at pieces i).
Proof.
  unfold piece_at. destruct (Z.leb_spec 0 i); [|not_unreachable].
  destruct (nth_error pieces (Z.to_nat i)) eqn:E; [simpl; auto | not_unreachable].
Qed.

Lemma writeUInt32BE_safe buf v off : safe (fun _ => True) (writeUInt32BE buf v off).
Proof.
  unfold writeUInt32BE. destruct (_ || _); [not_unreachable|].
  destruct (_ && _); simpl; [exact I | not_unreachable].
Qed.

Lemma writeUInt8_safe buf v off : safe (fun _ => True) (writeUInt8 buf v off).
Proof.
  unfold writeUInt8. destruct v; [destruct (_ || _); [not_unreachable|]|];
    destruct (_ && _); simpl; (exact I || not_unreachable).
Qed.

Lemma encode_request_safe a b c : safe (fun _ => True) (encodeMessage (Request a b c)).
Proof.
  unfold encodeMessage.
  apply (safe_bind (fun _ => True)).
  - apply (safe_bind (fun _ => True)); [apply writeUInt32BE_safe|]. intros.
    apply (safe_bind (fun _ => True)); [apply writeUInt32BE_safe|]. intros.
    apply writeUInt32BE_safe.
  - intros. apply (safe_bind (fun _ => True)); [apply writeUInt32BE_safe|]. intros.
    apply writeUInt8_safe.
Qed.

Lemma in_incompleted_indexes pieces idx :
  In idx (incompleted_indexes pieces) ->
  exists p, 0 <= idx /\ nth_error pieces (Z.to_nat idx) = Some p /\ completed p = false.
Proof.
  unfold incompleted_indexes. rewrite in_map_iff. intros (n & <- & Hn).
  apply filter_In in Hn as [_ Hn].
  destruct (nth_error pieces n) as [p|] eqn:E; [|discriminate].
  exists p. rewrite Nat2Z.id. split; [lia|]. split; [exact E|].
  destruct (completed p); [discriminate | reflexivity].
Qed.

Lemma getBit_zeros bs k i : bs_buf bs = repeat 0 k -> 0 <= i < 8 * Z.of_nat k ->
  getBit bs i = Ok false.
Proof.
  intros Hb Hi. rewrite getBit_spec; try rewrite Hb.
  - rewrite nth_repeat, Z.testbit_0_l. reflexivity.
  - apply Forall_forall. intros x Hx. apply repeat_spec in Hx. subst. reflexivity.
  - lia.
  - rewrite repeat_length. lia.
Qed.

(** On a fresh piece that is not completed, [getFirstIncompletedSubPiece]
    at an aligned hint that is 0 or inside the piece returns normally, with
    an aligned offset. *)
Lemma getFirstIncompletedSubPiece_fresh p hint :
  piece_fresh p -> completed p = false ->
  0 <= hint -> hint mod subPieceLength = 0 -> (hint = 0 \/ hint < pieceLength p) ->
  exists so, getFirstIncompletedSubPiece p hint = Ok (so, Z.min 16384 (pieceLength p - so))
    /\ 0 <= so /\ so mod subPieceLength = 0.
Proof.
  intros (Hc & HL & Hn & Hb) Hnc Hh Hm Hin.
  unfold completed in Hnc. rewrite Hc in Hnc. apply Z.eqb_neq in Hnc.
  set (bs := subPieceCompleted p) in *. set (n := bs_length bs) in *.
  unfold subPieceLength in *.
  rewrite Z.quot_div_nonneg in Hn by lia.
  assert (Hn0 : 0 <= n) by (rewrite Hn; apply Z.div_pos; lia).
  assert (Hk : 0 <= (n + 7) / 8) by (apply Z.div_pos; lia).
  assert (H8 : n <= 8 * Z.of_nat (length (bs_buf bs))).
  { rewrite Hb, repeat_length, Z2Nat.id by exact Hk.
    pose proof (Z.div_mod (n + 7) 8 ltac:(lia)). pose proof (Z.mod_pos_bound (n + 7) 8 ltac:(lia)).
    lia. }
  assert (HF : Forall (fun b => is_byte b = true) (bs_buf bs)).
  { rewrite Hb. apply Forall_forall. intros x Hx. apply repeat_spec in Hx. subst. reflexivity. }
  pose proof (getFirstIncompletedSubPiece_spec' p hint HF H8) as S. cbv zeta in S. fold bs in S.
  destruct (getFirstIncompletedSubPiece p hint) as [[off len]|e].
  - destruct S as (i & Hi & _ & _ & -> & -> & _).
    exists (i * 16384). split; [reflexivity|]. split; [lia|]. apply Z.mod_mul. lia.
  - exfalso. destruct S as [_ Hall].
    set (k := hint / 16384).
    assert (Hhk : hint = 16384 * k) by (pose proof (Z.div_mod hint 16384 ltac:(lia)); unfold k; lia).
    assert (Hkn : 0 <= k < n).
    { split; [apply Z.div_pos; lia|].
      destruct Hin as [H0|H0].
      - rewrite H0 in Hhk. lia.
      - rewrite Hn. pose proof (Z.div_mod (pieceLength p + 16384 - 1) 16384 ltac:(lia)).
        pose proof (Z.mod_pos_bound (pieceLength p + 16384 - 1) 16384 ltac:(lia)). lia. }
    specialize (Hall k Hkn ltac:(lia)).
    assert (Hz : getBit bs k = Ok false).
    { apply (getBit_zeros bs _ k Hb). rewrite Z2Nat.id by exact Hk.
      pose proof (Z.div_mod (n + 7) 8 ltac:(lia)). pose proof (Z.mod_pos_bound (n + 7) 8 ltac:(lia)).
      lia. }
    rewrite Hz in Hall. discriminate.
Qed.

Lemma nth_error_map_Some {A B} (f : A -> B) l i x :
  nth_error l i = Some x -> nth_error (map f l) i = Some (f x).
Proof. intros H. rewrite nth_error_map, H. reflexivity. Qed.

Section Pipeline.

Variable torrent_infoHash : string.
Variable math_random : nat -> Q.

Lemma downloadNextSubPiece_safe s :
  Forall piece_ok (ss_pieces s) ->
  cursor_ok (map pieceLength (ss_pieces s)) (ss_peer s) ->
  safe (fun s' => ss_pieces s' = ss_pieces s
                  /\ cursor_ok (map pieceLength (ss_pieces s)) (ss_peer s'))
    (downloadNextSubPiece math_random s).
Proof.
  intros Hp Hc. unfold downloadNextSubPiece.
  set (ps := ss_peer s) in *. set (pieces := ss_pieces s) in *.
  (* the piece whose first incomplete sub-piece is asked for, the cursor
     and the hint, after the repick *)
  assert (Hgo : forall s1 idx p,
    ss_pieces s1 = pieces ->
    downloadingPieceIndex (ss_peer s1) = Some idx ->
    0 <= idx -> nth_error pieces (Z.to_nat idx) = Some p -> completed p = false ->
    cursor_ok (map pieceLength pieces) (ss_peer s1) ->
    safe (fun s' => ss_pieces s' = pieces /\ cursor_ok (map pieceLength pieces) (ss_peer s'))
      (let ps := ss_peer s1 in
       let idx := match downloadingPieceIndex ps with Some i => i | None => 0 end in
       let hint := match downloadingSubPieceOffset ps with Some o => o | None => 0 end in
       let! p := piece_at pieces idx in
       let! so_sl := getFirstIncompletedSubPiece p hint in
       let '(subPieceOffset, subPieceLength) := so_sl in
       let! msg := encodeMessage (Request idx subPieceOffset subPieceLength) in
       let s := socket_call s1 (SockWrite msg) in
       let off := subPieceOffset + subPieceLength in
       let cursor :=
         if pieceLength p <=? off
         then set_cursor ps (Z.rem (idx + 1) (Z.of_nat (length pieces))) 0
         else set_cursor ps idx off in
       Ok (set_peer s cursor))).
  { intros s1 idx p Hs1 Hidx H0 Hnth Hnc Hc1. cbv zeta. rewrite Hidx.
    unfold piece_at. rewrite (proj2 (Z.leb_le 0 idx) H0), Hnth. cbn [bind].
    assert (Hfresh : piece_fresh p).
    { rewrite Forall_forall in Hp. destruct (Hp p (nth_error_In _ _ Hnth)) as [H|H];
        [congruence | exact H]. }
    set (hint := match downloadingSubPieceOffset (ss_peer s1) with Some o => o | None => 0 end).
    assert (Hh : 0 <= hint /\ hint mod subPieceLength = 0 /\ (hint = 0 \/ hint < pieceLength p)).
    { unfold hint. destruct (downloadingSubPieceOffset (ss_peer s1)) as [o|] eqn:Eo.
      - apply (Hc1 idx o (pieceLength p) Hidx Eo H0). apply nth_error_map_Some, Hnth.
      - split; [lia|]. split; [reflexivity | left; reflexivity]. }
    destruct Hh as (Hh0 & Hhm & Hhin).
    destruct (getFirstIncompletedSubPiece_fresh p hint Hfresh Hnc Hh0 Hhm Hhin)
      as (so & Hg & Hso & Hsom).
    rewrite Hg. cbn [bind].
    apply (safe_bind (fun _ => True)); [apply encode_request_safe|]. intros msg _.
    apply safe_ok. split; [exact Hs1|].
    intros idx' off' L' Hi' Ho' H0' Hn'. unfold set_peer, socket_call in Hi', Ho'.
    cbn [ss_peer] in Hi', Ho'.
    destruct (Z.leb_spec (pieceLength p) (so + Z.min 16384 (pieceLength p - so))) as [Hle|Hgt];
      cbn [set_cursor downloadingPieceIndex downloadingSubPieceOffset] in Hi', Ho';
      injection Hi' as <-; injection Ho' as <-.
    - split; [lia|]. split; [reflexivity | left; reflexivity].
    - rewrite (nth_error_map_Some pieceLength _ _ _ Hnth) in Hn'. injection Hn' as <-.
      assert (Hm : Z.min 16384 (pieceLength p - so) = 16384) by lia.
      rewrite Hm. split; [lia|]. split; [|right; lia].
      unfold subPieceLength in *. rewrite Z.add_mod, Hsom by lia. reflexivity. }
  (* the repick test *)
  destruct (downloadingPieceIndex ps) as [idx|] eqn:Ei.
  - cbn [bind].
    pose proof (peer_getBit_safe ps idx) as Hb.
    destruct (peer_getBit ps idx) as [b|e]; [|exact Hb]. cbn [bind negb].
    destruct b; cbn [negb bind].
    + pose proof (piece_at_safe pieces idx) as Hpa.
      destruct (piece_at pieces idx) as [p|e]; [|exact Hpa]. destruct Hpa as [H0 Hnth].
      cbn [bind]. destruct (completed p) eqn:Ecp.
      * (* repick *)
        pose proof (filter_bitfield_safe ps (incompleted_indexes pieces)) as Hf.
        destruct (filter_bitfield ps (incompleted_indexes pieces)) as [cands|e]; [|exact Hf].
        cbn [bind]. destruct cands as [|c cs]; [apply safe_ok; split; [reflexivity | exact Hc]|].
        match goal with |- context [match ?x with Some _ => _ | None => _ end] =>
          destruct x as [idx1|] eqn:Ex end; [|not_unreachable].
        cbn [bind].
        assert (Hin : In idx1 (c :: cs)).
        { destruct (0 <=? _); [|discriminate]. eapply nth_error_In, Ex. }
        destruct (in_incompleted_indexes pieces idx1 (Hf _ Hin)) as (p1 & H01 & Hn1 & Hc1).
        apply (Hgo _ idx1 p1); try reflexivity; try assumption.
        intros ? ? ? Hi' Ho' _ _. cbn in Hi', Ho'. injection Ho' as <-.
        split; [lia|]. split; [reflexivity | left; reflexivity].
      * apply (Hgo s idx p); try reflexivity; assumption.
    + (* repick *)
      pose proof (filter_bitfield_safe ps (incompleted_indexes pieces)) as Hf.
      destruct (filter_bitfield ps (incompleted_indexes pieces)) as [cands|e]; [|exact Hf].
      cbn [bind]. destruct cands as [|c cs]; [apply safe_ok; split; [reflexivity | exact Hc]|].
      match goal with |- context [match ?x with Some _ => _ | None => _ end] =>
        destruct x as [idx1|] eqn:Ex end; [|not_unreachable].
      cbn [bind].
      assert (Hin : In idx1 (c :: cs)).
      { destruct (0 <=? _); [|discriminate]. eapply nth_error_In, Ex. }
      destruct (in_incompleted_indexes pieces idx1 (Hf _ Hin)) as (p1 & H01 & Hn1 & Hc1).
      apply (Hgo _ idx1 p1); try reflexivity; try assumption.
      intros ? ? ? Hi' Ho' _ _. cbn in Hi', Ho'. injection Ho' as <-.
      split; [lia|]. split; [reflexivity | left; reflexivity].
  - cbn [bind].
    pose proof (filter_bitfield_safe ps (incompleted_indexes pieces)) as Hf.
    destruct (filter_bitfield ps (incompleted_indexes pieces)) as [cands|e]; [|exact Hf].
    cbn [bind]. destruct cands as [|c cs]; [apply safe_ok; split; [reflexivity | exact Hc]|].
    match goal with |- context [match ?x with Some _ => _ | None => _ end] =>
      destruct x as [idx1|] eqn:Ex end; [|not_unreachable].
    cbn [bind].
    assert (Hin : In idx1 (c :: cs)).
    { destruct (0 <=? _); [|discriminate]. eapply nth_error_In, Ex. }
    destruct (in_incompleted_indexes pieces idx1 (Hf _ Hin)) as (p1 & H01 & Hn1 & Hc1).
    apply (Hgo _ idx1 p1); try reflexivity; try assumption.
    intros ? ? ? Hi' Ho' _ _. cbn in Hi', Ho'. injection Ho' as <-.
    split; [lia|]. split; [reflexivity | left; reflexivity].
Qed.

Lemma download_loop_safe fuel : forall s,
  Forall piece_ok (ss_pieces s) ->
  cursor_ok (map pieceLength (ss_pieces s)) (ss_peer s) ->
  safe (fun s' => ss_pieces s' = ss_pieces s
                  /\ cursor_ok (map pieceLength (ss_pieces s)) (ss_peer s'))
    (download_loop math_random fuel s).
Proof.
  induction fuel as [|fuel IH]; intros s Hp Hc; cbn [download_loop].
  - apply safe_ok. split; [reflexivity | exact Hc].
  - set (s0 := set_peer s (set_inflight (ss_peer s) (downloadingSubPieces (ss_peer s) + 1))).
    assert (Hc0 : cursor_ok (map pieceLength (ss_pieces s0)) (ss_peer s0)) by exact Hc.
    apply (safe_bind _ _ _ _ (downloadNextSubPiece_safe s0 Hp Hc0)).
    intros s1 [Hs1 Hc1]. change (ss_pieces s0) with (ss_pieces s) in Hs1, Hc1.
    pose proof (IH s1) as H. rewrite Hs1 in H. apply H; [exact Hp | exact Hc1].
Qed.

Lemma BitSet_new_safe n buf : safe (fun _ => True) (BitSet_new n buf).
Proof.
  unfold BitSet_new, Buffer_alloc_q.
  destruct (Qlt_le_dec _ _); [not_unreachable|]. destruct buf; simpl; exact I.
Qed.

(** Handling one message keeps the pieces and a cursor of the invariant,
    or throws an error other than the unreachable one. *)
Lemma processMessage_safe s m :
  Forall piece_ok (ss_pieces s) ->
  cursor_ok (map pieceLength (ss_pieces s)) (ss_peer s) ->
  safe (fun s' => ss_pieces s' = ss_pieces s
                  /\ cursor_ok (map pieceLength (ss_pieces s)) (ss_peer s'))
    (processMessage torrent_infoHash math_random s m).
Proof.
  intros Hp Hc. destruct m; cbn [processMessage];
    try (apply safe_ok; split; [reflexivity | exact Hc]).
  - destruct (String.eqb _ _); [|not_unreachable].
    apply safe_ok. split; [reflexivity|]. exact Hc.
  - apply download_loop_safe; assumption.
  - destruct (negb _); [not_unreachable|].
    apply (safe_bind _ _ _ _ (BitSet_new_safe _ _)). intros bs _.
    apply safe_ok. split; [reflexivity | exact Hc].
  - apply (safe_bind _ _ _ _ (piece_at_safe _ _)). intros _ _. not_unreachable.
Qed.

End Pipeline.

Lemma map_selected_map {A B} (g : A -> B) (sel : nat -> bool) (f : A -> A) l :
  (forall x, g (f x) = g x) -> map g (map_selected sel f l) = map g l.
Proof.
  intros Hg. unfold map_selected. generalize 0%nat as k.
  induction l as [|x l IH]; intros k; [reflexivity|].
  cbn [length seq combine map]. rewrite IH. destruct (sel k); [rewrite Hg|]; reflexivity.
Qed.

Lemma map_selected_Forall {A} (P : A -> Prop) (sel : nat -> bool) (f : A -> A) l :
  (forall x, P x -> P (f x)) -> Forall P l -> Forall P (map_selected sel f l).
Proof.
  intros Hf. unfold map_selected. generalize 0%nat as k.
  induction l as [|x l IH]; intros k HF; [constructor|].
  inversion HF; subst. cbn [length seq combine map].
  constructor; [destruct (sel k); auto | apply IH; assumption].
Qed.

Lemma clear_cache_tick_lengths shuffled pieces :
  map pieceLength (clear_cache_tick shuffled pieces) = map pieceLength pieces.
Proof.
  unfold clear_cache_tick. destruct (_ <? _); [|reflexivity].
  apply map_selected_map. reflexivity.
Qed.

Lemma clear_cache_tick_piece_ok shuffled pieces :
  Forall piece_ok pieces -> Forall piece_ok (clear_cache_tick shuffled pieces).
Proof.
  unfold clear_cache_tick. destruct (_ <? _); [|auto].
  apply map_selected_Forall. intros [] H. exact H.
Qed.

Lemma Forall_remove_nth {A} (P : A -> Prop) i l :
  Forall P l -> Forall P (remove_nth i l).
Proof.
  intros H. unfold remove_nth. apply Forall_app. split.
  - rewrite <- (firstn_skipn i l) in H. apply Forall_app in H. apply H.
  - rewrite <- (firstn_skipn (S i) l) in H. apply Forall_app in H. apply H.
Qed.

Lemma world_step_safe ih rnd w e :
  world_ok w -> safe world_ok (world_step ih rnd w e).
Proof.
  intros [Hp Hc]. destruct e as [|i|i m|sh]; cbn [world_step].
  - apply safe_ok. split; [exact Hp|]. cbn [w_pieces w_peers].
    apply Forall_app. split; [exact Hc|]. constructor; [|constructor].
    intros idx off L Hi. discriminate Hi.
  - apply safe_ok. split; [exact Hp|]. apply Forall_remove_nth, Hc.
  - destruct (nth_error (w_peers w) i) as [ps|] eqn:E; [|apply safe_ok; split; assumption].
    assert (Hps : cursor_ok (map pieceLength (w_pieces w)) ps).
    { rewrite Forall_forall in Hc. apply Hc. eapply nth_error_In, E. }
    apply (safe_bind _ _ _ _
             (processMessage_safe ih rnd (mkSession (w_pieces w) ps [] [] (w_randoms w)) m Hp Hps)).
    intros s [Hs Hcs]. cbn [ss_pieces] in Hs, Hcs. apply safe_ok. split; cbn [w_pieces w_peers].
    + rewrite Hs. exact Hp.
    + rewrite Hs. apply Forall_set_nth; assumption.
  - apply safe_ok. split; cbn [w_pieces w_peers].
    + apply clear_cache_tick_piece_ok, Hp.
    + rewrite clear_cache_tick_lengths. exact Hc.
Qed.

Lemma world_run_safe ih rnd es : forall w,
  world_ok w -> safe world_ok (world_run ih rnd w es).
Proof.
  induction es as [|e es IH]; intros w Hw; cbn [world_run].
  - apply safe_ok, Hw.
  - apply (safe_bind _ _ _ _ (world_step_safe ih rnd w e Hw)). exact IH.
Qed.

Lemma Piece_new_ok dv i L h p :
  0 <= L -> Piece_new dv i L h = Ok p -> piece_ok p.
Proof.
  intros HL. unfold Piece_new.
  set (n := Z.quot (L + subPieceLength - 1) subPieceLength).
  assert (Hn : 0 <= n) by (unfold n, subPieceLength; apply Z.quot_pos; lia).
  rewrite (BitSet_new_ok n None Hn). cbn [bind].
  destruct (dv i); intros H; injection H as <-.
  - left. unfold completed. cbn. apply Z.eqb_refl.
  - right. unfold piece_fresh. cbn. repeat split; [lia].
Qed.

Lemma init_pieces_ok dv L hashes : forall i pieces,
  0 <= L -> init_pieces dv L hashes i = Ok pieces -> Forall piece_ok pieces.
Proof.
  induction hashes as [|h hs IH]; intros i pieces HL H; cbn [init_pieces] in H.
  - injection H as <-. constructor.
  - destruct (Piece_new dv i L h) as [p|e] eqn:Ep; cbn [bind] in H; [|discriminate].
    destruct (init_pieces dv L hs (i + 1)) as [ps|e] eqn:Eps; cbn [bind] in H; [|discriminate].
    injection H as <-. constructor; [apply (Piece_new_ok dv i L h p HL Ep) | apply (IH (i + 1) ps HL Eps)].
Qed.

(** C8. Pieces built by [new Piece(i, pieceLength, hash)] for any
    [pieceLength >= 0] and any disk contents; then any number of peers,
    added and removed at any time, sharing [state.pieces], any messages
    delivered to them in any interleaving, any clear-cache ticks, and any
    [Math.random()] values. The error "unreachable -- cannot get first
    incompleted sub piece" is only thrown by [getFirstIncompletedSubPiece],
    and nothing between it and the data handler catches it; the run never
    throws it: whenever [downloadNextSubPiece] calls
    [getFirstIncompletedSubPiece] with the cursor's offset, an incomplete
    sub-piece at or after that offset exists. (A PIECE message throws a
    TypeError at [savePiece], so no piece ever changes after the
    constructor: a piece is either complete, or has no completed sub-piece
    at all, and the cursor offset stays aligned and inside its piece.) *)
Theorem pipeline_never_unreachable (disk_piece_verified : Z -> bool) (pieceLength : Z)
    (hashes : list string) (pieces : list Piece) (torrent_infoHash : string)
    (math_random : nat -> Q) (es : list Event) :
  0 <= pieceLength ->
  init_pieces disk_piece_verified pieceLength hashes 0 = Ok pieces ->
  world_run torrent_infoHash math_random (mkWorld pieces [] 0) es <> Throw unreachable_error.
Proof.
  intros HL Hi.
  assert (Hw : world_ok (mkWorld pieces [] 0))
    by (split; [apply (init_pieces_ok _ _ _ _ _ HL Hi) | constructor]).
  pose proof (world_run_safe torrent_infoHash math_random es _ Hw) as H.
  destruct (world_run _ _ _ _) as [w|e]; [discriminate | intros E; injection E as ->; exact (H eq_refl)].
Qed.

Definition two_piece_events : list Event :=
  [PeerAdded; PeerAdded;
   MessageArrived 0 (Handshake "h" "-XX0000-000000000000"); MessageArrived 0 (Bitfield [192]);
   MessageArrived 1 (Bitfield [64]); MessageArrived 0 Unchoke; MessageArrived 1 Unchoke;
   CacheCleared [0%nat; 1%nat]; MessageArrived 0 Unchoke; PeerRemoved 1;
   MessageArrived 0 (PieceMsg 0 0 [1])].

Lemma pipeline_never_unreachable_witness :
  0 <= 20000 /\
  init_pieces (fun i => i =? 1) 20000 ["a"; "b"] 0
  = Ok [mkPiece 0 20000 "a" None (mkBitSet 2 [0]) [] 0;
        mkPiece 1 20000 "b" None (mkBitSet 2 [255]) [] 2] /\
  world_run "h" (fun _ => 1 # 2)
    (mkWorld [mkPiece 0 20000 "a" None (mkBitSet 2 [0]) [] 0;
              mkPiece 1 20000 "b" None (mkBitSet 2 [255]) [] 2] [] 0) two_piece_events
  <> Throw unreachable_error.
Proof.
  assert (Hi : init_pieces (fun i => i =? 1) 20000 ["a"; "b"] 0
               = Ok [mkPiece 0 20000 "a" None (mkBitSet 2 [0]) [] 0;
                     mkPiece 1 20000 "b" None (mkBitSet 2 [255]) [] 2]) by reflexivity.
  split; [lia|]. split; [exact Hi|].
  exact (pipeline_never_unreachable (fun i => i =? 1) 20000 ["a"; "b"] _ "h" (fun _ => 1 # 2)
           two_piece_events ltac:(lia) Hi).
Defined.
